(** * API stress tester: a shallow embedding of [main.py]

    The development follows the source file top to bottom: the JSON values a
    result dictionary holds, the exceptions the code can see, the file the
    sink appends to, [APIStressTester.__init__], [make_request],
    [_log_result], [run] and the [run_stress_test] wrapper.  The network, the
    clock, the JSON codec and the file system are the program's environment;
    they appear as records and classes whose fields the program calls. *)

From Stdlib Require Import ZArith String Ascii List Lia Permutation QArith_base.
From stdpp Require Import gmap strings list fin_maps.
Import ListNotations.

Set Warnings "-register-all".
Local Open Scope Z_scope.
Local Open Scope string_scope.
Local Open Scope list_scope.

(** ** Values *)

(** What [json.dumps] can serialise: the values stored in a result. *)
Inductive json : Type :=
| JNull
| JBool (b : bool)
| JInt (n : Z)
| JFloat (q : Q)
| JStr (s : string)
| JArr (items : list json)
| JObj (fields : list (string * json)).

(** A Python exception object: its class name and what [str(e)] gives. *)
Record exception : Type := Exc { exc_class : string; exc_str : string }.

(** The result of evaluating an expression that may raise. *)
Abbreviation raises A := (sum exception A).

(** [try: body  except: handler]. *)
Definition try_except {A} (body : raises A) (handler : exception -> raises A)
  : raises A :=
  match body with
  | inr a => inr a
  | inl e => handler e
  end.

(** An httpx response, as far as [make_request] reads it. *)
Record Response : Type := {
  status_code : Z;
  response_headers : list (string * string);
  content : string
}.

(** ** The environment *)

(** Library functions the program calls but does not implement. *)
Class Library : Type := {
  json_loads : string -> option json;   (* None: the body is not JSON *)
  json_dumps : json -> string;
  decode : string -> string             (* bytes to text, never fails *)
}.

(** What the outside world does during one run, per request id. *)
Record Env : Type := {
  now_iso : Z -> string;                (* datetime.now().isoformat() *)
  response_time : Z -> Q;               (* round((end - start) * 1000, 2) *)
  request : Z -> raises Response;
    (* await client.request(...): a response, or the instance of Exception
       the transport raises *)
  completes_at : Z -> nat;              (* when the task of a request ends *)
  mkdir_error : string -> option exception
    (* what making the directory of a path raises, when it cannot be made *)
}.

(** The files of the machine: each path holds the lines written to it (a line
    stands for its text followed by a newline).  A path in [read_only] cannot
    be opened for writing; [free] counts the lines the device still takes. *)
Record Disk : Type := {
  files : gmap string (list string);
  read_only : gset string;
  free : nat
}.

Definition file_lines (d : Disk) (path : string) : list string :=
  default [] (files d !! path).

(** ** The tester object *)

Abbreviation dict := (gmap string json).

Record APIStressTester : Type := {
  base_url : string;
  total_requests : Z;
  concurrent_requests : Z;
  headers : list (string * string);
  params : list (string * json);
  method : string;
  log_file : string;
  timeout : Q;
  results : list dict
}.

(** [str.upper] on the letters of ASCII, which is what the method of an HTTP
    request is written in; a string is held as its bytes, and the bytes of
    other characters are left as they are. *)
Definition upper_ascii (a : ascii) : ascii :=
  let n := nat_of_ascii a in
  if ((97 <=? n) && (n <=? 122))%nat then ascii_of_nat (n - 32) else a.

Fixpoint upper (s : string) : string :=
  match s with
  | EmptyString => EmptyString
  | String a rest => String (upper_ascii a) (upper rest)
  end.

(** [APIStressTester.__init__]: stores its arguments, no check on any. *)
Definition __init__ (base_url : string) (total_requests concurrent_requests : Z)
    (headers : option (list (string * string)))
    (params : option (list (string * json)))
    (method log_file : string) (timeout : Q) : APIStressTester :=
  {| base_url := base_url;
     total_requests := total_requests;
     concurrent_requests := concurrent_requests;
     headers := default [] headers;
     params := default [] params;
     method := upper method;
     log_file := log_file;
     timeout := timeout;
     results := [] |}.

(** ** The sink *)

Definition string_map (m : list (string * string)) : json :=
  JObj (map (fun kv => (fst kv, JStr (snd kv))) m).

(** [open(path, 'a')] then one [write]: the line goes after what the file
    holds; a refused open or a full device raises and writes nothing. *)
Definition append_line (path line : string) (d : Disk) : raises unit * Disk :=
  if decide (path ∈ read_only d) then
    (inl (Exc "PermissionError" "Permission denied"), d)
  else
    match free d with
    | O =>
        (inl (Exc "OSError" "No space left on device"),
         {| files := <[path := file_lines d path]> (files d);
            read_only := read_only d; free := O |})
    | S k =>
        (inr tt,
         {| files := <[path := file_lines d path ++ [line]]> (files d);
            read_only := read_only d; free := k |})
    end.

(** [open(path, 'w')] with an empty body: the file is left empty. *)
Definition truncate (path : string) (d : Disk) : raises unit * Disk :=
  if decide (path ∈ read_only d) then
    (inl (Exc "PermissionError" "Permission denied"), d)
  else
    (inr tt,
     {| files := <[path := []]> (files d);
        read_only := read_only d; free := free d |}).

Section Program.
Context `{L : Library}.

(** A result dictionary serialised as one JSON object. *)
Definition dumps_result (result : dict) : string :=
  json_dumps (JObj (map_to_list result)).

(** [APIStressTester._log_result] *)
Definition _log_result (self : APIStressTester) (result : dict) (d : Disk)
  : raises unit * Disk :=
  append_line (log_file self) (dumps_result result) d.

(** ** One request *)

(** [response.json()]: raises when the body does not parse. *)
Definition response_json (response : Response) : raises json :=
  match json_loads (content response) with
  | Some v => inr v
  | None => inl (Exc "JSONDecodeError" "Expecting value")
  end.

Definition response_text (response : Response) : string :=
  decode (content response).

(** Lines 94-98: the inner [try]/[except] that fills ["response_body"]. *)
Definition parse_body (response : Response) : raises json :=
  try_except (response_json response)
             (fun _ => inr (JStr (response_text response))).

(** [dict.update] with a literal: later keys win over the ones present. *)
Definition update (result : dict) (items : list (string * json)) : dict :=
  fold_left (fun acc kv => <[fst kv := snd kv]> acc) items result.

(** Lines 65-72: the dictionary before the request is sent. *)
Definition initial_result (self : APIStressTester) (env : Env)
    (request_id : Z) : dict :=
  update ∅
    [ ("request_id", JInt request_id);
      ("timestamp", JStr (now_iso env request_id));
      ("url", JStr (base_url self));
      ("method", JStr (method self));
      ("headers", string_map (headers self));
      ("params", JObj (params self)) ].

(** Lines 75-98: the body of the outer [try], for what the [await] of lines
    76-81 gave.  The dictionary is mutated in place, so what was stored
    before a raise stays stored. *)
Definition try_block_on (env : Env) (request_id : Z) (got : raises Response)
    (result : dict) : raises unit * dict :=
  match got with
  | inl e => (inl e, result)
  | inr response =>
      let result :=
        update result
          [ ("status_code", JInt (status_code response));
            ("response_time_ms", JFloat (response_time env request_id));
            ("success",
             JBool ((200 <=? status_code response)%Z
                    && (status_code response <? 300)%Z));
            ("response_headers", string_map (response_headers response));
            ("content_length",
             JInt (Z.of_nat (String.length (content response)))) ] in
      match parse_body response with
      | inl e => (inl e, result)
      | inr body => (inr tt, <["response_body" := body]> result)
      end
  end.

(** The [try] of a request of the run: the transport answers or raises. *)
Definition try_block (self : APIStressTester) (env : Env) (request_id : Z)
    (result : dict) : raises unit * dict :=
  try_block_on env request_id (request env request_id) result.

(** Lines 100-109: the handler of [except Exception as e]. *)
Definition except_block (env : Env) (request_id : Z) (e : exception)
    (result : dict) : dict :=
  update result
    [ ("status_code", JNull);
      ("response_time_ms", JFloat (response_time env request_id));
      ("success", JBool false);
      ("error", JStr (exc_str e)) ].

(** Lines 64-109: the dictionary [make_request] has built when it reaches
    the call of [_log_result], for a request of the run: the transport gave
    a response or raised an instance of [Exception], which the handler
    catches.  What the handler does not catch is in [perform] below. *)
Definition build_result (self : APIStressTester) (env : Env) (request_id : Z)
  : dict :=
  match try_block self env request_id (initial_result self env request_id) with
  | (inr _, result) => result
  | (inl e, result) => except_block env request_id e result
  end.

(** What the [await] of lines 76-81 can do: give a response, raise an
    instance of [Exception] (every error of the transport is one, timeouts
    included), or raise what is not one: the task is cancelled
    ([asyncio.CancelledError]) or the process interrupted
    ([KeyboardInterrupt]) while it waits. *)
Inductive awaited : Type :=
| Responded (response : Response)
| Failed (e : exception)
| Interrupted (e : exception).

(** Lines 64-109 when the [await] responded or failed: the dictionary as the
    [try] or the handler leaves it. *)
Definition result_after (self : APIStressTester) (env : Env) (request_id : Z)
    (got : raises Response) : dict :=
  match try_block_on env request_id got (initial_result self env request_id) with
  | (inr _, result) => result
  | (inl e, result) => except_block env request_id e result
  end.

(** Lines 111-112: the sink is called outside the [try], so what it raises
    leaves the function. *)
Definition log_and_return (self : APIStressTester) (result : dict) (d : Disk)
  : raises dict * Disk :=
  match _log_result self result d with
  | (inl e, d') => (inl e, d')
  | (inr _, d') => (inr result, d')
  end.

(** The body of [make_request] for each thing the [await] can do.  The
    handler is [except Exception]: an interruption is not caught, it leaves
    the function before the sink is reached. *)
Definition perform (self : APIStressTester) (env : Env) (request_id : Z)
    (outcome : awaited) (d : Disk) : raises dict * Disk :=
  match outcome with
  | Interrupted e => (inl e, d)
  | Failed e => log_and_return self (result_after self env request_id (inl e)) d
  | Responded response =>
      log_and_return self (result_after self env request_id (inr response)) d
  end.

(** What the transport of the run does for a request; nothing outside the
    run interrupts it. *)
Definition outcome_of (got : raises Response) : awaited :=
  match got with
  | inr response => Responded response
  | inl e => Failed e
  end.

(** [APIStressTester.make_request], as the run calls it. *)
Definition make_request (self : APIStressTester) (env : Env) (request_id : Z)
    (d : Disk) : raises dict * Disk :=
  perform self env request_id (outcome_of (request env request_id)) d.

(** ** The event loop *)

(** What happens to the tasks of a run: [asyncio.create_task] creates the
    task of a request; the task ends by returning its result or by raising. *)
Inductive event : Type :=
| Created (request_id : Z)
| Returned (request_id : Z)
| Raised (request_id : Z) (e : exception).

(** A task is named by the request id it was created with. *)
Record State : Type := {
  this : APIStressTester;         (* the object, as the call leaves it *)
  disk : Disk;
  trace : list event;             (* the events so far, oldest first *)
  finished : gmap Z dict;         (* the results of the tasks that returned *)
  gathered : list (list dict)     (* the value of each [gather], unused by [run] *)
}.

Definition set_disk (d : Disk) (s : State) : State :=
  {| this := this s; disk := d; trace := trace s;
     finished := finished s; gathered := gathered s |}.

Definition emit (ev : event) (s : State) : State :=
  {| this := this s; disk := disk s; trace := trace s ++ [ev];
     finished := finished s; gathered := gathered s |}.

Definition finish (request_id : Z) (result : dict) (s : State) : State :=
  {| this := this s; disk := disk s; trace := trace s;
     finished := <[request_id := result]> (finished s);
     gathered := gathered s |}.

Definition record_gather (values : list dict) (s : State) : State :=
  {| this := this s; disk := disk s; trace := trace s;
     finished := finished s; gathered := gathered s ++ [values] |}.

(** The order in which the tasks of a batch end: by the time the environment
    gives each request, tasks that end together in the order of creation. *)
Fixpoint insert_by (key : Z -> nat) (x : Z) (l : list Z) : list Z :=
  match l with
  | [] => [x]
  | y :: l' =>
      if (key x <=? key y)%nat then x :: y :: l' else y :: insert_by key x l'
  end.

Definition completion_order (env : Env) (tasks : list Z) : list Z :=
  fold_right (insert_by (completes_at env)) [] tasks.

(** The tasks run to their end in completion order.  The first one that
    raises ends the wait: [gather] hands the exception to its caller. *)
Fixpoint await_all (env : Env) (order : list Z) (s : State)
  : raises unit * State :=
  match order with
  | [] => (inr tt, s)
  | i :: rest =>
      match make_request (this s) env i (disk s) with
      | (inl e, d') => (inl e, emit (Raised i e) (set_disk d' s))
      | (inr result, d') =>
          await_all env rest (finish i result (emit (Returned i) (set_disk d' s)))
      end
  end.

(** [await asyncio.gather] on [tasks]: the results come in the order of [tasks],
    whatever the order in which the tasks ended. *)
Definition gather (env : Env) (tasks : list Z) (s : State)
  : raises (list dict) * State :=
  match await_all env (completion_order env tasks) s with
  | (inl e, s') => (inl e, s')
  | (inr _, s') =>
      let values := omap (fun i => finished s' !! i) tasks in
      (inr values, record_gather values s')
  end.

(** [range(n)] *)
Definition range (n : Z) : list Z := seqZ 0 n.

(** Lines 134-146: the [for] loop over [indices] with the [if tasks:] that
    follows it; [tasks] is the local list, empty when the loop starts. *)
Fixpoint dispatch (env : Env) (indices : list Z) (tasks : list Z) (s : State)
  : raises unit * State :=
  match indices with
  | [] =>
      match tasks with
      | [] => (inr tt, s)
      | _ :: _ =>
          match gather env tasks s with
          | (inl e, s') => (inl e, s')
          | (inr _, s') => (inr tt, s')
          end
      end
  | i :: rest =>
      let s := emit (Created (i + 1)) s in
      let tasks := tasks ++ [i + 1] in
      if (concurrent_requests (this s) <=? Z.of_nat (length tasks))%Z then
        match gather env tasks s with
        | (inl e, s') => (inl e, s')
        | (inr _, s') => dispatch env rest [] s'
        end
      else dispatch env rest tasks s
  end.

(** [APIStressTester.run]: no [return], so a call that ends gives [None].
    The client is the environment's; opening and closing it changes nothing
    the model holds. *)
Definition run (self : APIStressTester) (env : Env) (d : Disk)
  : raises unit * State :=
  dispatch env (range (total_requests self)) []
    {| this := self; disk := d; trace := []; finished := ∅; gathered := [] |}.

(** Line 172, [Path(log_file).parent.mkdir(parents=True, exist_ok=True)].
    Directories are not part of [Disk].  A path that can be opened for
    writing has its directory once this line has run; for a path that
    cannot, the environment says whether it is this line that raises, the
    directory being impossible to make. *)
Definition mkdir_parent (env : Env) (path : string) (d : Disk)
  : raises unit * Disk :=
  if decide (path ∈ read_only d) then
    match mkdir_error env path with
    | Some e => (inl e, d)
    | None => (inr tt, d)
    end
  else (inr tt, d).

(** [run_stress_test]: the directory of the log is made, the log is emptied,
    then a tester is built and run. *)
Definition run_stress_test (env : Env) (url : string)
    (total_requests concurrent_requests : Z)
    (headers : option (list (string * string)))
    (params : option (list (string * json)))
    (method log_file : string) (timeout : Q) (d : Disk)
  : raises unit * Disk :=
  match mkdir_parent env log_file d with
  | (inl e, d') => (inl e, d')
  | (inr _, d0) =>
      match truncate log_file d0 with
      | (inl e, d') => (inl e, d')
      | (inr _, d') =>
          let tester :=
            __init__ url total_requests concurrent_requests headers params
                     method log_file timeout in
          let '(out, s) := run tester env d' in
          (out, disk s)
      end
  end.

End Program.

(** ** Observations on a trace *)

(** The requests whose task has been created and has not ended. *)
Definition step_in_flight (acc : list Z) (ev : event) : list Z :=
  match ev with
  | Created i => acc ++ [i]
  | Returned i => filter (fun j => j ≠ i) acc
  | Raised i _ => filter (fun j => j ≠ i) acc
  end.

Definition in_flight (t : list event) : list Z :=
  fold_left step_in_flight t [].

(** The batches [run] hands to [gather] when nothing raises: the control flow
    of the loop alone. *)
Fixpoint loop_batches (c : Z) (indices : list Z) (tasks : list Z)
  : list (list Z) :=
  match indices with
  | [] => match tasks with [] => [] | _ => [tasks] end
  | i :: rest =>
      let tasks := tasks ++ [i + 1] in
      if (c <=? Z.of_nat (length tasks))%Z then tasks :: loop_batches c rest []
      else loop_batches c rest tasks
  end.

Definition batches (total c : Z) : list (list Z) :=
  loop_batches c (range total) [].

(** ** A sample environment, for running the model *)

Definition sample_loads (s : string) : option json :=
  if decide (s = "null") then Some JNull
  else if decide (s = "true") then Some (JBool true)
  else if decide (s = "false") then Some (JBool false)
  else if decide (s = "[]") then Some (JArr [])
  else if decide (s = "{}") then Some (JObj [])
  else None.

Definition sample_dumps (j : json) : string :=
  match j with
  | JObj fields => "{" +:+ String.concat ", " (map fst fields) +:+ "}"
  | _ => "?"
  end.

#[local] Instance sample_library : Library :=
  {| json_loads := sample_loads; json_dumps := sample_dumps;
     decode := fun bytes => bytes |}.

Definition ok_response (code : Z) (body : string) : Response :=
  {| status_code := code;
     response_headers := [("content-type", "application/json")];
     content := body |}.

(** Request 2 times out, request 3 is refused by the server, the others get
    an empty JSON object; the later a request is sent the sooner it ends. *)
Definition sample_env : Env :=
  {| now_iso := fun _ => "2024-01-01T00:00:00";
     response_time := fun _ => (5 # 4)%Q;
     request := fun i =>
       if decide (i = 2) then inl (Exc "ReadTimeout" "timed out")
       else if decide (i = 3) then inr (ok_response 500 "oops")
       else inr (ok_response 200 "{}");
     completes_at := fun i => Z.to_nat (100 - i);
     mkdir_error := fun _ => None |}.

Definition sample_tester (total c : Z) : APIStressTester :=
  __init__ "http://localhost/todos" total c None None "get" "log.jsonl" (60 # 1)%Q.

Definition empty_disk (space : nat) : Disk :=
  {| files := ∅; read_only := ∅; free := space |}.

Definition prior_disk (space : nat) : Disk :=
  {| files := {[ "log.jsonl" := ["old line"] ]}; read_only := ∅; free := space |}.

Definition locked_disk : Disk :=
  {| files := ∅; read_only := {[ "log.jsonl" ]}; free := 100%nat |}.


(** ** Reading a result *)

(** The status code is there when the key holds an integer; on the failure
    path the key holds [None], which is how the code says there is none. *)
Definition status_present (r : dict) : Prop :=
  exists code, r !! "status_code" = Some (JInt code).

Definition error_present (r : dict) : Prop := is_Some (r !! "error").


(** The line [_log_result] writes for a request. *)
Definition log_line `{L : Library} (self : APIStressTester) (env : Env)
    (request_id : Z) : string :=
  dumps_result (build_result self env request_id).

(** How many more lines a path takes before an append raises. *)
Definition capacity (d : Disk) (path : string) : nat :=
  if decide (path ∈ read_only d) then O else free d.

(** The requests of a trace, by kind of event, in the order of the trace. *)
Definition created (t : list event) : list Z :=
  omap (fun ev => match ev with Created i => Some i | _ => None end) t.

Definition returned (t : list event) : list Z :=
  omap (fun ev => match ev with Returned i => Some i | _ => None end) t.

Definition is_completion (ev : event) : Prop :=
  match ev with
  | Created _ => False
  | _ => True
  end.

Definition is_raise (ev : event) : Prop :=
  match ev with
  | Raised _ _ => True
  | _ => False
  end.

(** The exceptions of the sink. *)
Definition sink_error (e : exception) : Prop :=
  exc_class e = "PermissionError" \/ exc_class e = "OSError".

(** What a stretch of a run, with events [evs], did to the state: the events
    went to the end of the trace, and the log got one line for each request
    that returned, in the order of the returns; no other file changed. *)
Record effect `{L : Library} (env : Env) (s s' : State) (evs : list event)
  : Prop := {
  eff_this : this s' = this s;
  eff_trace : trace s' = trace s ++ evs;
  eff_lines :
    file_lines (disk s') (log_file (this s)) =
    file_lines (disk s) (log_file (this s))
      ++ map (log_line (this s) env) (returned evs);
  eff_capacity :
    (capacity (disk s') (log_file (this s)) + length (returned evs))%nat =
    capacity (disk s) (log_file (this s));
  eff_others :
    forall path, path ≠ log_file (this s) ->
                 file_lines (disk s') path = file_lines (disk s) path
}.

(** How a stretch that had [n] requests to complete ended: all of them
    returned, or the sink raised [e] for one of them, the last event. *)
Definition ended (out : raises unit) (s' : State) (evs : list event) (n : nat)
  : Prop :=
  match out with
  | inr _ => Forall (fun ev => ¬ is_raise ev) evs /\ length (returned evs) = n
  | inl e =>
      sink_error e
      /\ capacity (disk s') (log_file (this s')) = O
      /\ (length (returned evs) < n)%nat
      /\ exists evs0 i, evs = evs0 ++ [Raised i e]
                        /\ Forall (fun ev => ¬ is_raise ev) evs0
  end.

(** No prefix of the trace has more than [c] requests in flight. *)
Definition bounded (c : Z) (t : list event) : Prop :=
  forall p, p `prefix_of` t -> Z.of_nat (length (in_flight p)) <= c.

(** When a request is created, it belongs to one of the batches [B], and
    every request created before it is of that batch or has returned. *)
Definition isolated (B : list (list Z)) (t : list event) : Prop :=
  forall p j rest,
    t = p ++ Created j :: rest ->
    exists b, b ∈ B /\ j ∈ b
              /\ forall i, Created i ∈ p -> i ∈ b \/ Returned i ∈ p.

(** Two more environments: one where every connection is refused, one
    where the server answers every request with the same status. *)
Definition refusing_env : Env :=
  {| now_iso := fun _ => "2024-01-01T00:00:00";
     response_time := fun _ => (1 # 2)%Q;
     request := fun _ => inl (Exc "ConnectError" "connection refused");
     completes_at := fun i => Z.to_nat (100 - i);
     mkdir_error := fun _ => None |}.

Definition constant_env (code : Z) : Env :=
  {| now_iso := fun _ => "2024-01-01T00:00:00";
     response_time := fun _ => (3 # 2)%Q;
     request := fun _ => inr (ok_response code "busy");
     completes_at := fun i => Z.to_nat i;
     mkdir_error := fun _ => None |}.


(** The keys of a result after a response, and after an exception. *)
Definition response_keys : gset string :=
  {[ "request_id"; "timestamp"; "url"; "method"; "headers"; "params";
     "status_code"; "response_time_ms"; "success";
     "response_headers"; "content_length"; "response_body" ]}.

Definition failure_keys : gset string :=
  {[ "request_id"; "timestamp"; "url"; "method"; "headers"; "params";
     "status_code"; "response_time_ms"; "success"; "error" ]}.

(** The events of a batch that ran to its end: its tasks are created, then
    they return in completion order. *)
Definition batch_events (env : Env) (b : list Z) : list event :=
  map Created b ++ map Returned (completion_order env b).

(** * Results of one request *)

Section ResultFacts.
Context `{L : Library}.

Ltac crush_lookup :=
  unfold update, initial_result, update; simpl; simplify_map_eq; try done.

Lemma parse_body_value response :
  parse_body response =
  inr (match json_loads (content response) with
       | Some v => v
       | None => JStr (response_text response)
       end).
Proof.
  unfold parse_body, try_except, response_json.
  by destruct (json_loads (content response)).
Qed.

Lemma build_result_responded self env i response :
  request env i = inr response ->
  let r := build_result self env i in
  r !! "status_code" = Some (JInt (status_code response))
  /\ r !! "error" = None
  /\ r !! "success" =
       Some (JBool ((200 <=? status_code response)%Z
                    && (status_code response <? 300)%Z))
  /\ (exists body, parse_body response = inr body
                   /\ r !! "response_body" = Some body)
  /\ r !! "request_id" = Some (JInt i).
Proof.
  intros H. unfold build_result, try_block, try_block_on. rewrite H.
  rewrite parse_body_value.
  repeat split; try (eexists; split; [reflexivity|]); crush_lookup.
Qed.

Lemma build_result_failed self env i e :
  request env i = inl e ->
  let r := build_result self env i in
  r !! "status_code" = Some JNull
  /\ r !! "error" = Some (JStr (exc_str e))
  /\ r !! "success" = Some (JBool false)
  /\ r !! "response_body" = None
  /\ r !! "request_id" = Some (JInt i).
Proof.
  intros H. unfold build_result, try_block, try_block_on, except_block. rewrite H.
  repeat split; crush_lookup.
Qed.


Lemma make_request_unfold self env i d :
  make_request self env i d =
  match _log_result self (build_result self env i) d with
  | (inl e, d') => (inl e, d')
  | (inr _, d') => (inr (build_result self env i), d')
  end.
Proof.
  unfold make_request, build_result, try_block, result_after.
  by destruct (request env i).
Qed.

(** [make_request] gives back the dictionary it built, or what the sink
    raised. *)
Lemma make_request_inr self env i d r d' :
  make_request self env i d = (inr r, d') ->
  r = build_result self env i
  /\ _log_result self (build_result self env i) d = (inr tt, d').
Proof.
  rewrite make_request_unfold.
  destruct (_log_result self (build_result self env i) d) as [[e|[]] d0];
    intros H; inversion H; auto.
Qed.

Lemma make_request_inl self env i d e d' :
  make_request self env i d = (inl e, d') <->
  _log_result self (build_result self env i) d = (inl e, d').
Proof.
  rewrite make_request_unfold.
  destruct (_log_result self (build_result self env i) d) as [[e0|[]] d0];
    split; intros H; inversion H; auto.
Qed.

Lemma make_request_of_log self env i d d' :
  _log_result self (build_result self env i) d = (inr tt, d') ->
  make_request self env i d = (inr (build_result self env i), d').
Proof. rewrite make_request_unfold. by intros ->. Qed.

End ResultFacts.

(** * The sink *)

Lemma file_lines_insert (fs : gmap string (list string)) ro fr path l q :
  file_lines {| files := <[path := l]> fs; read_only := ro; free := fr |} q =
  if decide (path = q) then l else default [] (fs !! q).
Proof. unfold file_lines; simpl. rewrite lookup_insert. by case_decide. Qed.

Lemma append_line_spec path line d :
  match append_line path line d with
  | (inr _, d') =>
      capacity d path ≠ O
      /\ file_lines d' path = file_lines d path ++ [line]
      /\ (capacity d' path + 1)%nat = capacity d path
  | (inl e, d') =>
      sink_error e
      /\ capacity d path = O
      /\ file_lines d' path = file_lines d path
      /\ capacity d' path = O
  end
  /\ forall q, q ≠ path ->
       file_lines (snd (append_line path line d)) q = file_lines d q.
Proof.
  unfold append_line, capacity.
  destruct (decide (path ∈ read_only d)) as [Hro|Hro]; simpl.
  - rewrite decide_True by done. unfold sink_error; simpl. auto.
  - destruct (free d) as [|k] eqn:Hfree; simpl;
      rewrite !file_lines_insert, !decide_True by done.
    + rewrite decide_False by done. unfold sink_error; simpl.
      split; [auto|]. intros q Hq. rewrite file_lines_insert.
      by rewrite decide_False by done.
    + rewrite decide_False by done.
      split; [repeat split; auto; lia|]. intros q Hq.
      rewrite file_lines_insert. by rewrite decide_False by done.
Qed.

Section RunFacts.
Context `{L : Library}.

Lemma returned_app t1 t2 : returned (t1 ++ t2) = returned t1 ++ returned t2.
Proof. unfold returned. apply omap_app. Qed.

Lemma created_app t1 t2 : created (t1 ++ t2) = created t1 ++ created t2.
Proof. unfold created. apply omap_app. Qed.

Lemma returned_map_Returned l : returned (map Returned l) = l.
Proof. induction l; simpl; [done|]. unfold returned in *. simpl. by f_equal. Qed.

Lemma created_map_Returned l : created (map Returned l) = [].
Proof. induction l; simpl; done. Qed.

Lemma effect_refl env s : effect env s s [].
Proof.
  split; simpl; rewrite ?app_nil_r; auto with lia.
Qed.

Lemma effect_trans env s1 s2 s3 evs1 evs2 :
  effect env s1 s2 evs1 -> effect env s2 s3 evs2 ->
  effect env s1 s3 (evs1 ++ evs2).
Proof.
  intros [T1 R1 L1 C1 O1] [T2 R2 L2 C2 O2]. rewrite T1 in *. split.
  - congruence.
  - rewrite R2, R1. by rewrite app_assoc.
  - rewrite L2, L1, returned_app, map_app. by rewrite app_assoc.
  - rewrite returned_app, length_app. lia.
  - intros q Hq. rewrite O2, O1 by done. done.
Qed.

(** One task ends. *)
Lemma make_request_step env i s :
  match make_request (this s) env i (disk s) with
  | (inr r, d') =>
      r = build_result (this s) env i
      /\ effect env s (emit (Returned i) (set_disk d' s)) [Returned i]
  | (inl e, d') =>
      sink_error e
      /\ capacity d' (log_file (this s)) = O
      /\ effect env s (emit (Raised i e) (set_disk d' s)) [Raised i e]
  end.
Proof.
  rewrite make_request_unfold. unfold _log_result.
  pose proof (append_line_spec (log_file (this s))
                (dumps_result (build_result (this s) env i)) (disk s)) as [H O].
  destruct (append_line _ _ (disk s)) as [[e|[]] d']; simpl in *.
  - destruct H as (Hs & Hc & Hl & Hc'). split; [done|]. split; [done|].
    split; simpl; auto.
    + by rewrite Hl, app_nil_r.
    + lia.
  - destruct H as (Hc & Hl & Hc'). split; [done|].
    split; simpl; auto.
Qed.

Lemma effect_finish env s s' evs i r :
  effect env s s' evs -> effect env s (finish i r s') evs.
Proof. intros [T R Ln C O]. by split. Qed.

Lemma effect_record_gather env s s' evs values :
  effect env s s' evs -> effect env s (record_gather values s') evs.
Proof. intros [T R Ln C O]. by split. Qed.

(** The tasks of a batch end one after the other, until the sink raises. *)
Lemma await_all_spec env order : forall s out s',
  await_all env order s = (out, s') ->
  exists evs,
    effect env s s' evs /\ gathered s' = gathered s /\
    match out with
    | inr _ =>
        evs = map Returned order
        /\ forall i, finished s' !! i =
                     if decide (i ∈ order)
                     then Some (build_result (this s) env i)
                     else finished s !! i
    | inl e =>
        sink_error e
        /\ capacity (disk s') (log_file (this s)) = O
        /\ exists done x rest,
             order = done ++ x :: rest /\ evs = map Returned done ++ [Raised x e]
    end.
Proof.
  induction order as [|i rest IH]; intros s out s' H; simpl in H.
  - inversion H; subst. exists []. split; [apply effect_refl|].
    split; [done|]. split; [done|]. intros i.
    rewrite decide_False; [done|]. apply not_elem_of_nil.
  - pose proof (make_request_step env i s) as Hstep.
    destruct (make_request (this s) env i (disk s)) as [[e|r] d'].
    + inversion H; subst. destruct Hstep as (He & Hc & Heff).
      exists [Raised i e]. split; [done|]. split; [done|].
      split; [done|]. split; [done|]. by exists [], i, rest.
    + destruct Hstep as (-> & Heff).
      apply (effect_finish _ _ _ _ i (build_result (this s) env i)) in Heff.
      apply IH in H as (evs & Heff' & Hg & Hout).
      exists ([Returned i] ++ evs).
      split; [by eapply effect_trans|]. split; [done|].
      destruct out as [e|u].
      * destruct Hout as (He & Hc & done & x & rest' & -> & ->).
        split; [done|]. split; [done|].
        by exists (i :: done), x, rest'.
      * destruct Hout as (-> & Hfin). split; [done|]. intros j.
        rewrite Hfin. simpl.
        destruct (decide (j ∈ rest)) as [Hj|Hj].
        -- rewrite decide_True; [done|]. by apply list_elem_of_further.
        -- destruct (decide (j = i)) as [->|Hne].
           ++ rewrite decide_True by apply list_elem_of_here.
              by rewrite lookup_insert_eq.
           ++ rewrite decide_False.
              ** by rewrite lookup_insert_ne.
              ** rewrite elem_of_cons. tauto.
Qed.

Lemma insert_by_Permutation key x l : insert_by key x l ≡ₚ x :: l.
Proof.
  induction l as [|y l IH]; simpl; [done|].
  destruct (key x <=? key y)%nat; [done|].
  rewrite IH. apply Permutation_swap.
Qed.

Lemma completion_order_Permutation env tasks :
  completion_order env tasks ≡ₚ tasks.
Proof.
  induction tasks as [|x l IH]; simpl; [done|].
  unfold completion_order in *. simpl.
  rewrite insert_by_Permutation. by rewrite IH.
Qed.

Lemma completion_order_length env tasks :
  length (completion_order env tasks) = length tasks.
Proof. by rewrite completion_order_Permutation. Qed.

Lemma elem_of_completion_order env tasks i :
  i ∈ completion_order env tasks <-> i ∈ tasks.
Proof. by rewrite completion_order_Permutation. Qed.

(** [gather]: the values are the results of the tasks, in task order. *)
Lemma gather_spec env tasks s out s' :
  gather env tasks s = (out, s') ->
  exists evs,
    effect env s s' evs /\
    match out with
    | inr values =>
        values = map (build_result (this s) env) tasks
        /\ evs = map Returned (completion_order env tasks)
        /\ gathered s' = gathered s ++ [values]
    | inl e =>
        gathered s' = gathered s
        /\ sink_error e
        /\ capacity (disk s') (log_file (this s)) = O
        /\ exists done x rest,
             completion_order env tasks = done ++ x :: rest
             /\ evs = map Returned done ++ [Raised x e]
    end.
Proof.
  unfold gather. intros H.
  destruct (await_all env (completion_order env tasks) s) as [[e|u] s1] eqn:Ha;
    apply await_all_spec in Ha as (evs & Heff & Hg & Hout);
    inversion H; subst; exists evs.
  - split; [done|]. by split.
  - destruct Hout as (-> & Hfin).
    split; [by apply effect_record_gather|].
    assert (omap (fun i => finished s1 !! i) tasks
            = map (build_result (this s) env) tasks) as ->.
    { clear -Hfin. assert (forall i, i ∈ tasks -> i ∈ tasks) as Hin by done.
      revert Hin. generalize tasks at 1 3 4. intros l Hl.
      induction l as [|i l IH]; simpl; [done|].
      rewrite Hfin, decide_True.
      - simpl. f_equal. apply IH. intros j Hj. apply Hl.
        by apply list_elem_of_further.
      - apply elem_of_completion_order, Hl, list_elem_of_here. }
    simpl. by rewrite Hg.
Qed.

End RunFacts.
Section DispatchFacts.
Context `{L : Library}.

Lemma effect_emit_created env s j :
  effect env s (emit (Created j) s) [Created j].
Proof. split; simpl; rewrite ?app_nil_r; auto with lia. Qed.

Lemma no_raise_map_Returned l :
  Forall (fun ev => ¬ is_raise ev) (map Returned l).
Proof. induction l; simpl; constructor; auto. Qed.

Lemma returned_snoc_Raised t i e : returned (t ++ [Raised i e]) = returned t.
Proof. rewrite returned_app. simpl. by rewrite app_nil_r. Qed.

Lemma created_snoc_Raised t i e : created (t ++ [Raised i e]) = created t.
Proof. rewrite created_app. simpl. by rewrite app_nil_r. Qed.

(** What [gather] leaves, in the terms of [ended]. *)
Lemma gather_ended env tasks s out s' :
  gather env tasks s = (out, s') ->
  exists evs,
    effect env s s' evs /\ created evs = [] /\
    match out with
    | inr values =>
        values = map (build_result (this s) env) tasks
        /\ Forall (fun ev => ¬ is_raise ev) evs
        /\ returned evs = completion_order env tasks
        /\ gathered s' = gathered s ++ [values]
    | inl e =>
        sink_error e
        /\ capacity (disk s') (log_file (this s')) = O
        /\ (length (returned evs) < length tasks)%nat
        /\ exists evs0 i, evs = evs0 ++ [Raised i e]
                          /\ Forall (fun ev => ¬ is_raise ev) evs0
    end.
Proof.
  intros H. apply gather_spec in H as (evs & Heff & Hout).
  exists evs. split; [done|]. destruct out as [e|values].
  - destruct Hout as (Hg & He & Hc & done & x & rest & Hord & ->).
    split; [by rewrite created_snoc_Raised, created_map_Returned|].
    split; [done|]. rewrite (eff_this _ _ _ _ Heff). split; [done|]. split.
    + rewrite returned_snoc_Raised, returned_map_Returned.
      rewrite <- (completion_order_length env tasks), Hord.
      rewrite length_app. simpl. lia.
    + exists (map Returned done), x. split; [done|].
      apply no_raise_map_Returned.
  - destruct Hout as (-> & -> & Hg).
    split; [apply created_map_Returned|]. split; [done|].
    split; [apply no_raise_map_Returned|].
    split; [apply returned_map_Returned|done].
Qed.

(** The whole loop, whatever its end. *)
Lemma dispatch_spec env indices : forall tasks s out s',
  dispatch env indices tasks s = (out, s') ->
  exists evs,
    effect env s s' evs
    /\ ended out s' evs (length tasks + length indices)
    /\ created evs `prefix_of` map (fun i => i + 1) indices
    /\ match out with
       | inr _ =>
           created evs = map (fun i => i + 1) indices
           /\ returned evs =
                flat_map (completion_order env)
                  (loop_batches (concurrent_requests (this s)) indices tasks)
           /\ gathered s' =
                gathered s
                ++ map (map (build_result (this s) env))
                     (loop_batches (concurrent_requests (this s)) indices tasks)
       | inl _ => True
       end.
Proof.
  induction indices as [|i rest IH]; intros tasks s out s' H; simpl in H.
  - destruct tasks as [|t ts].
    + inversion H; subst. exists []. split; [apply effect_refl|].
      simpl. rewrite app_nil_r. repeat split; auto.
    + destruct (gather env (t :: ts) s) as [[e|values] s1] eqn:Hg;
        inversion H; subst;
        apply gather_ended in Hg as (evs & Heff & Hcr & Hout);
        exists evs; (split; [done|]); rewrite Hcr.
      * split; [|done]. simpl in *. by rewrite Nat.add_0_r.
      * destruct Hout as (-> & Hnr & Hret & Hgath).
        split; [split; [done|]|].
        { rewrite Hret, completion_order_length. simpl. lia. }
        split; [done|]. split; [done|]. simpl.
        by rewrite Hret, app_nil_r.
  - pose proof (effect_emit_created env s (i + 1)) as Hcre.
    set (s1 := emit (Created (i + 1)) s) in *.
    change (this s1) with (this s) in H.
    destruct (concurrent_requests (this s)
              <=? Z.of_nat (length (tasks ++ [i + 1])))%Z eqn:Hfull.
    + destruct (gather env (tasks ++ [i + 1]) s1) as [[e|values] s2] eqn:Hg;
        apply gather_ended in Hg as (evsg & Heffg & Hcrg & Houtg).
      * inversion H; subst. exists ([Created (i + 1)] ++ evsg).
        split; [by eapply effect_trans|].
        destruct Houtg as (He & Hc & Hlen & evs0 & x & -> & Hnr).
        split; [|split; [|done]].
        -- split; [done|]. split; [done|]. split.
           ++ rewrite returned_app. simpl. rewrite length_app in Hlen.
              simpl in *. lia.
           ++ exists ([Created (i + 1)] ++ evs0), x. split; [done|].
              constructor; auto.
        -- rewrite created_app, Hcrg. simpl. apply prefix_cons, prefix_nil.
      * destruct Houtg as (-> & Hnrg & Hretg & Hgath).
        apply IH in H as (evs2 & Heff2 & Hend2 & Hpre2 & Hout2).
        assert (this s2 = this s) as Hthis
            by (rewrite (eff_this _ _ _ _ Heffg); done).
        exists ([Created (i + 1)] ++ evsg ++ evs2).
        split; [eapply effect_trans; [done|]; by eapply effect_trans|].
        assert (Hlen : length (returned evsg) = S (length tasks)).
        { rewrite Hretg, completion_order_length, length_app. simpl. lia. }
        split; [|split].
        -- destruct out as [e|u]; simpl in *.
           ++ destruct Hend2 as (He & Hc & Hlt & evs0 & x & -> & Hnr).
              split; [done|]. split; [done|]. split.
              ** rewrite !returned_app, !length_app, Hlen.
                 rewrite returned_app, length_app in Hlt. simpl in *. lia.
              ** exists ([Created (i + 1)] ++ evsg ++ evs0), x.
                 split; [by rewrite <- !app_assoc|].
                 constructor; [auto|]. by apply Forall_app.
           ++ destruct Hend2 as (Hnr & Hl2). split.
              ** constructor; [auto|]. by apply Forall_app.
              ** rewrite !returned_app, !length_app, Hlen. simpl. lia.
        -- rewrite !created_app, Hcrg. simpl. by apply prefix_cons.
        -- destruct out as [e|u]; [done|].
           destruct Hout2 as (Hcr2 & Hret2 & Hg2).
           rewrite Hthis in *. change (this s1) with (this s) in *.
           simpl loop_batches. rewrite Hfull. split; [|split].
           ++ rewrite !created_app, Hcrg, Hcr2. done.
           ++ rewrite !returned_app, Hretg, Hret2. done.
           ++ rewrite Hg2, Hgath. simpl. by rewrite <- app_assoc.
    + apply IH in H as (evs2 & Heff2 & Hend2 & Hpre2 & Hout2).
      change (this s1) with (this s) in *.
      exists ([Created (i + 1)] ++ evs2).
      split; [by eapply effect_trans|]. split; [|split].
      * rewrite length_app in Hend2. simpl in Hend2.
        replace (length tasks + length (i :: rest))%nat
          with (length tasks + 1 + length rest)%nat by (simpl; lia).
        destruct out as [e|u]; simpl in *.
        -- destruct Hend2 as (He & Hc & Hlt & evs0 & x & -> & Hnr).
           split; [done|]. split; [done|]. split; [done|].
           exists ([Created (i + 1)] ++ evs0), x. split; [done|].
           constructor; auto.
        -- destruct Hend2 as (Hnr & Hl2). split; [|done].
           constructor; auto.
      * rewrite created_app. simpl. by apply prefix_cons.
      * destruct out as [e|u]; [done|].
        destruct Hout2 as (Hcr2 & Hret2 & Hg2).
        simpl loop_batches. rewrite Hfull. split; [|split].
        -- rewrite created_app, Hcr2. done.
        -- rewrite returned_app, Hret2. done.
        -- done.
Qed.

End DispatchFacts.
(** * The batches of the loop *)

Section BatchFacts.
Variable c : Z.

Lemma loop_batches_concat indices : forall tasks,
  concat (loop_batches c indices tasks) = tasks ++ map (fun i => i + 1) indices.
Proof.
  induction indices as [|i rest IH]; intros tasks; simpl.
  - destruct tasks; simpl; by rewrite ?app_nil_r.
  - destruct (c <=? Z.of_nat (length (tasks ++ [i + 1])))%Z; simpl;
      rewrite IH; by rewrite <- ?app_assoc.
Qed.

Lemma loop_batches_sizes indices : forall tasks,
  Z.of_nat (length tasks) < c ->
  Forall (fun b => 1 <= Z.of_nat (length b) <= c) (loop_batches c indices tasks).
Proof.
  induction indices as [|i rest IH]; intros tasks Hlt; simpl.
  - destruct tasks as [|t ts]; [constructor|].
    constructor; [|constructor]. simpl in *. lia.
  - destruct (Z.leb_spec c (Z.of_nat (length (tasks ++ [i + 1])))) as [Hfull|Hfull];
      rewrite length_app in Hfull; simpl in Hfull.
    + constructor.
      * rewrite length_app. simpl. lia.
      * apply IH. simpl. lia.
    + apply IH. rewrite length_app. simpl. lia.
Qed.

Lemma loop_batches_full indices : forall tasks k b,
  Z.of_nat (length tasks) < c ->
  loop_batches c indices tasks !! k = Some b ->
  (S k < length (loop_batches c indices tasks))%nat ->
  Z.of_nat (length b) = c.
Proof.
  induction indices as [|i rest IH]; intros tasks k b Hlt; simpl.
  - destruct tasks; simpl; intros _ Hk; lia.
  - destruct (Z.leb_spec c (Z.of_nat (length (tasks ++ [i + 1])))) as [Hfull|Hfull];
      rewrite length_app in Hfull; simpl in Hfull.
    + destruct k as [|k]; simpl.
      * intros [= <-] _. rewrite length_app. simpl. lia.
      * intros Hb Hk. eapply (IH [] k); [simpl; lia|done|lia].
    + apply IH. rewrite length_app. simpl. lia.
Qed.

Lemma loop_batches_head indices : forall tasks,
  tasks ≠ [] \/ indices ≠ [] ->
  exists b bs, loop_batches c indices tasks = b :: bs /\ tasks `prefix_of` b.
Proof.
  induction indices as [|i rest IH]; intros tasks Hne; simpl.
  - destruct tasks as [|t ts]; [by destruct Hne|]. by exists (t :: ts), [].
  - destruct (c <=? Z.of_nat (length (tasks ++ [i + 1])))%Z.
    + exists (tasks ++ [i + 1]), (loop_batches c rest []).
      split; [done|]. by apply prefix_app_r.
    + destruct (IH (tasks ++ [i + 1])) as (b & bs & Hb & Hpre).
      { left. by destruct tasks. }
      exists b, bs. split; [done|]. by eapply prefix_app_l.
Qed.


End BatchFacts.

Lemma range_succ n : map (fun i => i + 1) (range n) = seqZ 1 n.
Proof.
  unfold range. rewrite <- (fmap_add_seqZ 1 0).
  apply map_ext. intros; lia.
Qed.

Lemma batches_concat total c : concat (batches total c) = seqZ 1 total.
Proof. unfold batches. by rewrite loop_batches_concat, range_succ. Qed.

Lemma flat_map_completion_order env bs :
  flat_map (completion_order env) bs ≡ₚ concat bs.
Proof.
  induction bs as [|b bs IH]; simpl; [done|].
  by rewrite completion_order_Permutation, IH.
Qed.

(** * Requests in flight *)

Lemma in_flight_snoc t ev :
  in_flight (t ++ [ev]) = step_in_flight (in_flight t) ev.
Proof. unfold in_flight. by rewrite fold_left_app. Qed.

Lemma step_completion_length acc ev :
  is_completion ev -> (length (step_in_flight acc ev) <= length acc)%nat.
Proof. destruct ev; simpl; [done| |]; intros _; apply length_filter. Qed.

Lemma in_flight_drained l : forall t,
  (forall i, i ∈ in_flight t -> i ∈ l) ->
  in_flight (t ++ map Returned l) = [].
Proof.
  induction l as [|x l IH]; intros t Hsub; simpl.
  - rewrite app_nil_r. apply elem_of_nil_inv. intros i Hi.
    by apply Hsub, elem_of_nil in Hi.
  - rewrite (cons_middle (Returned x)), app_assoc. apply IH.
    intros i. rewrite in_flight_snoc. simpl.
    rewrite list_elem_of_filter. intros [Hne Hi].
    apply Hsub, elem_of_cons in Hi. by destruct Hi.
Qed.

Lemma prefix_snoc_cases {A} (p t : list A) (x : A) :
  p `prefix_of` t ++ [x] -> p `prefix_of` t \/ p = t ++ [x].
Proof.
  intros [k Hk]. destruct k as [|y k _] using rev_ind.
  - right. by rewrite app_nil_r in Hk.
  - left. rewrite app_assoc in Hk. apply app_inj_tail in Hk as [-> _].
    by exists k.
Qed.

Lemma bounded_snoc c t ev :
  bounded c t -> Z.of_nat (length (in_flight (t ++ [ev]))) <= c ->
  bounded c (t ++ [ev]).
Proof.
  intros Hb Hlen p Hp. apply prefix_snoc_cases in Hp as [Hp| ->]; auto.
Qed.

Lemma bounded_completions c t evs :
  bounded c t -> Forall is_completion evs -> bounded c (t ++ evs).
Proof.
  intros Hb. induction evs as [|ev evs IH] using rev_ind; intros Hall.
  - by rewrite app_nil_r.
  - apply Forall_app in Hall as [Hall Hev]. apply Forall_inv in Hev.
    rewrite app_assoc. apply bounded_snoc; [by apply IH|].
    rewrite in_flight_snoc.
    pose proof (step_completion_length (in_flight (t ++ evs)) ev Hev).
    pose proof (IH Hall (t ++ evs) (reflexivity _)). lia.
Qed.

Lemma snoc_split_created (t p rest : list event) ev j :
  t ++ [ev] = p ++ Created j :: rest ->
  (rest = [] /\ ev = Created j /\ p = t)
  \/ exists rest', rest = rest' ++ [ev] /\ t = p ++ Created j :: rest'.
Proof.
  intros H. destruct rest as [|x rest _] using rev_ind.
  - left. apply app_inj_tail in H as [-> ->]. done.
  - right. exists rest.
    rewrite (app_comm_cons _ _ (Created j)), app_assoc in H.
    apply app_inj_tail in H as [-> ->]. done.
Qed.

Lemma isolated_snoc_completion B t ev :
  isolated B t -> is_completion ev -> isolated B (t ++ [ev]).
Proof.
  intros Hi Hev p j rest H.
  apply snoc_split_created in H as [(_ & -> & _)|(rest' & _ & ->)].
  - done.
  - by eapply Hi.
Qed.

Lemma isolated_completions B t evs :
  isolated B t -> Forall is_completion evs -> isolated B (t ++ evs).
Proof.
  intros Hi. induction evs as [|ev evs IH] using rev_ind; intros Hall.
  - by rewrite app_nil_r.
  - apply Forall_app in Hall as [Hall Hev]. apply Forall_inv in Hev.
    rewrite app_assoc. apply isolated_snoc_completion; auto.
Qed.

Lemma isolated_snoc_created B t j b :
  isolated B t -> b ∈ B -> j ∈ b ->
  (forall i, Created i ∈ t -> i ∈ b \/ Returned i ∈ t) ->
  isolated B (t ++ [Created j]).
Proof.
  intros Hi Hb Hj Hprev p j' rest H.
  apply snoc_split_created in H as [(_ & [= <-] & ->)|(rest' & _ & ->)].
  - by exists b.
  - by eapply Hi.
Qed.

(** * The loop keeps the batches apart *)

Section CalmFacts.
Context `{L : Library}.

Lemma completions_map_Returned l : Forall is_completion (map Returned l).
Proof. induction l; simpl; constructor; simpl; auto. Qed.

Lemma gather_trace env tasks s out s' :
  gather env tasks s = (out, s') ->
  this s' = this s
  /\ exists evs,
       trace s' = trace s ++ evs /\ Forall is_completion evs
       /\ (forall values, out = inr values ->
                          evs = map Returned (completion_order env tasks)).
Proof.
  intros H. apply gather_spec in H as (evs & Heff & Hout).
  split; [apply Heff|]. exists evs. split; [apply Heff|].
  destruct out as [e|values].
  - destruct Hout as (_ & _ & _ & done & x & rest & _ & ->).
    split; [|done]. apply Forall_app. split.
    + apply completions_map_Returned.
    + by repeat constructor.
  - destruct Hout as (_ & -> & _).
    split; [apply completions_map_Returned|done].
Qed.

Lemma elem_of_map_Returned i l : Returned i ∈ map Returned l <-> i ∈ l.
Proof.
  rewrite list_elem_of_fmap. split.
  - by intros (j & [= ->] & Hj).
  - intros Hi. by exists i.
Qed.

Lemma Created_not_in_map_Returned i l : Created i ∈ map Returned l -> False.
Proof. rewrite list_elem_of_fmap. by intros (j & [=] & _). Qed.

Lemma dispatch_calm env B c :
  forall indices tasks s out s',
    concurrent_requests (this s) = c ->
    Z.of_nat (length tasks) < c ->
    in_flight (trace s) = tasks ->
    bounded c (trace s) ->
    isolated B (trace s) ->
    (forall i, Created i ∈ trace s -> i ∈ tasks \/ Returned i ∈ trace s) ->
    (forall b, b ∈ loop_batches c indices tasks -> b ∈ B) ->
    dispatch env indices tasks s = (out, s') ->
    bounded c (trace s') /\ isolated B (trace s').
Proof.
  induction indices as [|i rest IH];
    intros tasks s out s' Hc Hlt Hfl Hb Hi Hprev HB H; simpl in H.
  - destruct tasks as [|t ts]; [by inversion H; subst|].
    destruct (gather env (t :: ts) s) as [[e|values] s1] eqn:Hg;
      inversion H; subst s1;
      apply gather_trace in Hg as (_ & evs & -> & Hall & _);
      (split; [by apply bounded_completions|by apply isolated_completions]).
  - set (s1 := emit (Created (i + 1)) s) in *.
    change (this s1) with (this s) in H. rewrite Hc in H.
    destruct (loop_batches_head c (i :: rest) tasks) as (b0 & bs & Hhead & _);
      [by right|].
    assert (Hpre : (tasks ++ [i + 1]) `prefix_of` b0).
    { simpl in Hhead.
      destruct (c <=? Z.of_nat (length (tasks ++ [i + 1])))%Z.
      - by inversion Hhead.
      - destruct (loop_batches_head c rest (tasks ++ [i + 1]))
          as (b1 & bs1 & Hb1 & Hp1); [left; by destruct tasks|].
        rewrite Hb1 in Hhead. by inversion Hhead; subst. }
    assert (Hb0 : b0 ∈ B).
    { apply HB. rewrite Hhead. apply list_elem_of_here. }
    assert (Hin : forall j, j ∈ tasks ++ [i + 1] -> j ∈ b0).
    { intros j Hj. destruct Hpre as [k ->]. apply elem_of_app. by left. }
    assert (Hfl1 : in_flight (trace s1) = tasks ++ [i + 1]).
    { simpl. rewrite in_flight_snoc. simpl. by rewrite Hfl. }
    assert (Hb1 : bounded c (trace s1)).
    { simpl. apply bounded_snoc; [done|]. simpl in Hfl1. rewrite Hfl1.
      rewrite length_app. simpl. lia. }
    assert (Hi1 : isolated B (trace s1)).
    { simpl. apply (isolated_snoc_created B _ _ b0); auto.
      - apply Hin, elem_of_app. right. apply list_elem_of_here.
      - intros j Hj. destruct (Hprev j Hj) as [Ht|Hr]; [|by right].
        left. apply Hin, elem_of_app. by left. }
    assert (Hprev1 : forall j, Created j ∈ trace s1 ->
                               j ∈ tasks ++ [i + 1] \/ Returned j ∈ trace s1).
    { simpl. intros j Hj. apply elem_of_app in Hj as [Hj|Hj].
      - destruct (Hprev j Hj) as [Ht|Hr].
        + left. apply elem_of_app. by left.
        + right. apply elem_of_app. by left.
      - apply list_elem_of_singleton in Hj as [= ->].
        left. apply elem_of_app. right. apply list_elem_of_here. }
    simpl in HB.
    destruct (Z.leb_spec c (Z.of_nat (length (tasks ++ [i + 1]))))
      as [Hfull|Hfull].
    + destruct (gather env (tasks ++ [i + 1]) s1) as [[e|values] s2] eqn:Hg;
        apply gather_trace in Hg as (Hthis & evs & Htr & Hall & Hevs).
      * inversion H; subst s2. rewrite Htr.
        split; [by apply bounded_completions|by apply isolated_completions].
      * specialize (Hevs values eq_refl). subst evs.
        apply (IH [] s2 out s'); auto.
        -- by rewrite Hthis.
        -- simpl. lia.
        -- rewrite Htr. apply in_flight_drained. intros j.
           rewrite Hfl1. by rewrite elem_of_completion_order.
        -- rewrite Htr. by apply bounded_completions.
        -- rewrite Htr. by apply isolated_completions.
        -- intros j. rewrite Htr. intros Hj. right.
           apply elem_of_app in Hj as [Hj|Hj];
             [|by apply Created_not_in_map_Returned in Hj].
           destruct (Hprev1 j Hj) as [Ht|Hr].
           ++ apply elem_of_app. right.
              by apply elem_of_map_Returned, elem_of_completion_order.
           ++ apply elem_of_app. by left.
        -- intros b Hbin. apply HB. by apply list_elem_of_further.
    + apply (IH (tasks ++ [i + 1]) s1 out s'); auto.
Qed.

End CalmFacts.

(** * Claims about one result *)


(** C5.  Every result [make_request] returns has either a status code or an
    error, never both and never neither.  When the request raised, the
    message of the exception is under ["error"] and ["status_code"] holds
    [None]; when a response came, its status code is there and the key
    ["error"] is not. *)
Theorem status_code_xor_error `{L : Library} self env i d r d' :
  make_request self env i d = (inr r, d') ->
  (status_present r /\ ¬ error_present r
   \/ ¬ status_present r /\ error_present r)
  /\ (forall e, request env i = inl e ->
                r !! "error" = Some (JStr (exc_str e))
                /\ r !! "status_code" = Some JNull
                /\ ¬ status_present r)
  /\ (forall response, request env i = inr response ->
                       r !! "status_code" = Some (JInt (status_code response))
                       /\ r !! "error" = None).
Proof.
  intros H. apply make_request_inr in H as [-> _].
  unfold status_present, error_present.
  destruct (request env i) as [e|response] eqn:Hreq.
  - destruct (build_result_failed self env i e Hreq) as (Hs & He & _).
    split; [right|split].
    + rewrite Hs, He. split; [by intros [code [=]]|by eexists].
    + intros e' [= <-]. rewrite Hs. repeat split; auto. by intros [code [=]].
    + by intros response [=].
  - destruct (build_result_responded self env i response Hreq) as (Hs & He & _).
    split; [left|split].
    + rewrite Hs, He. split; [by eexists|by intros [x [=]]].
    + by intros e [=].
    + by intros response' [= <-].
Qed.

Lemma status_code_xor_error_witness :
  let r := build_result (sample_tester 3 2) sample_env 2 in
  make_request (sample_tester 3 2) sample_env 2 (empty_disk 5)
  = (inr r, snd (make_request (sample_tester 3 2) sample_env 2 (empty_disk 5)))
  /\ (status_present r /\ ¬ error_present r
      \/ ¬ status_present r /\ error_present r).
Proof.
  split; [reflexivity|].
  apply (status_code_xor_error (sample_tester 3 2) sample_env 2 (empty_disk 5)
           _ (snd (make_request (sample_tester 3 2) sample_env 2 (empty_disk 5)))).
  reflexivity.
Defined.

(** C6.  In every result, ["success"] is true exactly when the status code is
    present and lies in [200, 300).  A response with a status outside that
    range gives a result with ["success"] false, its status code, and no
    ["error"] key. *)
Theorem success_iff_status_2xx `{L : Library} self env i d r d' :
  make_request self env i d = (inr r, d') ->
  exists b,
    r !! "success" = Some (JBool b)
    /\ (b = true <->
        exists code, r !! "status_code" = Some (JInt code) /\ 200 <= code < 300)
    /\ (forall response,
          request env i = inr response ->
          ¬ (200 <= status_code response < 300) ->
          b = false
          /\ r !! "status_code" = Some (JInt (status_code response))
          /\ r !! "error" = None).
Proof.
  intros H. apply make_request_inr in H as [-> _].
  destruct (request env i) as [e|response] eqn:Hreq.
  - destruct (build_result_failed self env i e Hreq) as (Hs & _ & Hb & _).
    exists false. rewrite Hs. split; [done|]. split.
    + split; [done|]. by intros (code & [=] & _).
    + by intros response [=].
  - destruct (build_result_responded self env i response Hreq)
      as (Hs & He & Hb & _).
    eexists. split; [exact Hb|]. rewrite Hs. split.
    + rewrite andb_true_iff, Z.leb_le, Z.ltb_lt. split.
      * intros Hr. by exists (status_code response).
      * by intros (code & [= <-] & Hr).
    + intros response' [= <-] Hout. split; [|done].
      apply not_true_is_false. rewrite andb_true_iff, Z.leb_le, Z.ltb_lt.
      tauto.
Qed.

Lemma success_iff_status_2xx_witness :
  let r := build_result (sample_tester 3 2) sample_env 3 in
  make_request (sample_tester 3 2) sample_env 3 (empty_disk 5)
  = (inr r, snd (make_request (sample_tester 3 2) sample_env 3 (empty_disk 5)))
  /\ exists b, r !! "success" = Some (JBool b)
               /\ (b = true <->
                   exists code, r !! "status_code" = Some (JInt code)
                                /\ 200 <= code < 300).
Proof.
  split; [reflexivity|].
  destruct (success_iff_status_2xx (sample_tester 3 2) sample_env 3
              (empty_disk 5) _
              (snd (make_request (sample_tester 3 2) sample_env 3 (empty_disk 5)))
              eq_refl) as (b & Hb & Hiff & _).
  by exists b.
Defined.








(** C9.  The step that fills ["response_body"] never raises: it gives the
    parsed value when the body is JSON and the text of the body when it is
    not, and that value is what the result holds. *)
Theorem parse_body_never_raises `{L : Library} response :
  (exists body,
     parse_body response = inr body
     /\ (forall v, json_loads (content response) = Some v -> body = v)
     /\ (json_loads (content response) = None ->
         body = JStr (response_text response)))
  /\ (forall e, parse_body response ≠ inl e)
  /\ (forall self env i,
        request env i = inr response ->
        exists body, parse_body response = inr body
                     /\ build_result self env i !! "response_body" = Some body).
Proof.
  split; [|split].
  - rewrite parse_body_value. eexists. split; [reflexivity|].
    destruct (json_loads (content response)); split; congruence.
  - intros e. by rewrite parse_body_value.
  - intros self env i H.
    apply (build_result_responded self env i response H).
Qed.

Lemma parse_body_never_raises_witness :
  request sample_env 3 = inr (ok_response 500 "oops")
  /\ build_result (sample_tester 3 2) sample_env 3 !! "response_body"
     = Some (JStr "oops").
Proof.
  split; [reflexivity|].
  destruct (proj2 (proj2 (parse_body_never_raises (ok_response 500 "oops")))
              (sample_tester 3 2) sample_env 3 eq_refl) as (body & Hp & Hb).
  rewrite Hb. f_equal. vm_compute in Hp. congruence.
Defined.


(** * The whole run *)

Section RunSpec.
Context `{L : Library}.

Lemma run_spec self env d out s' :
  run self env d = (out, s') ->
  this s' = self
  /\ file_lines (disk s') (log_file self) =
     file_lines d (log_file self)
       ++ map (log_line self env) (returned (trace s'))
  /\ (capacity (disk s') (log_file self) + length (returned (trace s')))%nat =
     capacity d (log_file self)
  /\ (forall path, path ≠ log_file self ->
                   file_lines (disk s') path = file_lines d path)
  /\ ended out s' (trace s') (Z.to_nat (total_requests self))
  /\ created (trace s') `prefix_of` seqZ 1 (total_requests self)
  /\ match out with
     | inr _ =>
         created (trace s') = seqZ 1 (total_requests self)
         /\ returned (trace s') =
              flat_map (completion_order env)
                (batches (total_requests self) (concurrent_requests self))
         /\ gathered s' =
              map (map (build_result self env))
                (batches (total_requests self) (concurrent_requests self))
     | inl _ => True
     end.
Proof.
  unfold run. intros H.
  apply dispatch_spec in H as (evs & [Ht Htr Hl Hc Ho] & Hend & Hpre & Hout).
  simpl in *. subst evs. rewrite range_succ in *.
  unfold range in Hend. rewrite length_seqZ in Hend.
  repeat (split; [done|]). destruct out; [done|]. exact Hout.
Qed.

(** The run returns exactly when the log takes a line for every request. *)
Lemma run_returns_iff self env d out s' :
  run self env d = (out, s') ->
  out = inr tt <->
  (Z.to_nat (total_requests self) <= capacity d (log_file self))%nat.
Proof.
  intros H. apply run_spec in H as (Ht & _ & Hc & _ & Hend & _).
  destruct out as [e|[]]; simpl in Hend.
  - destruct Hend as (_ & Hz & Hlt & _). rewrite Ht in Hz.
    split; [done|]. lia.
  - destruct Hend as (_ & Hlen). split; [|done]. lia.
Qed.

Lemma run_calm self env d out s' :
  1 <= concurrent_requests self ->
  run self env d = (out, s') ->
  bounded (concurrent_requests self) (trace s')
  /\ isolated (batches (total_requests self) (concurrent_requests self))
       (trace s').
Proof.
  intros Hc H. unfold run in H.
  eapply (dispatch_calm env _ (concurrent_requests self)) in H; eauto.
  - simpl. lia.
  - intros p Hp. simpl in Hp. apply prefix_nil_inv in Hp as ->. simpl. lia.
  - intros p j rest Hnil. simpl in Hnil. by destruct p.
  - simpl. intros i Hi. by apply elem_of_nil in Hi.
Qed.

End RunSpec.


Lemma concat_gathered `{L : Library} self env bs :
  concat (map (map (build_result self env)) bs) =
  map (build_result self env) (concat bs).
Proof. by rewrite concat_map. Qed.

(** * The trace of a run, batch by batch *)

Lemma dispatch_trace `{L : Library} env indices : forall tasks s s',
  dispatch env indices tasks s = (inr tt, s') ->
  exists ext,
    trace s' = trace s ++ ext
    /\ map Created tasks ++ ext =
       flat_map (batch_events env)
         (loop_batches (concurrent_requests (this s)) indices tasks).
Proof.
  induction indices as [|i rest IH]; intros tasks s s' H; simpl in H.
  - destruct tasks as [|t ts].
    + inversion H; subst. exists []. by rewrite app_nil_r.
    + destruct (gather env (t :: ts) s) as [[e|values] s1] eqn:Hg;
        inversion H; subst.
      apply gather_spec in Hg as (evs & Heff & _ & -> & _).
      exists (map Returned (completion_order env (t :: ts))).
      split; [apply Heff|]. simpl. by rewrite app_nil_r.
  - set (s1 := emit (Created (i + 1)) s) in *.
    change (this s1) with (this s) in H. simpl loop_batches.
    destruct (concurrent_requests (this s)
              <=? Z.of_nat (length (tasks ++ [i + 1])))%Z.
    + destruct (gather env (tasks ++ [i + 1]) s1) as [[e|values] s2] eqn:Hg;
        [by inversion H|].
      apply gather_spec in Hg as (evs & Heff & _ & -> & _).
      apply IH in H as (ext & Htr & Hext).
      rewrite (eff_this _ _ _ _ Heff) in Hext. change (this s1) with (this s) in Hext.
      exists ([Created (i + 1)]
              ++ map Returned (completion_order env (tasks ++ [i + 1])) ++ ext).
      split.
      * rewrite Htr, (eff_trace _ _ _ _ Heff). simpl. by rewrite <- !app_assoc.
      * simpl in Hext. simpl. rewrite <- Hext. unfold batch_events.
        rewrite map_app. simpl. by rewrite <- !app_assoc.
    + apply IH in H as (ext & Htr & Hext).
      change (this s1) with (this s) in Hext.
      exists ([Created (i + 1)] ++ ext). split.
      * rewrite Htr. simpl. by rewrite <- app_assoc.
      * rewrite <- Hext, map_app. simpl. by rewrite <- app_assoc.
Qed.

(** A loop that the sink stopped: the batches before the one it stopped in
    ran to their end; that one was created whole, some of its tasks
    returned, in completion order, and the next to complete raised. *)
Lemma dispatch_trace_abort `{L : Library} env indices : forall tasks s e s',
  dispatch env indices tasks s = (inl e, s') ->
  exists ext k b done x rest,
    trace s' = trace s ++ ext
    /\ loop_batches (concurrent_requests (this s)) indices tasks !! k = Some b
    /\ completion_order env b = done ++ x :: rest
    /\ map Created tasks ++ ext =
       flat_map (batch_events env)
         (take k (loop_batches (concurrent_requests (this s)) indices tasks))
       ++ map Created b ++ map Returned done ++ [Raised x e].
Proof.
  induction indices as [|i rest IH]; intros tasks s e s' H; simpl in H.
  - destruct tasks as [|t ts]; [by inversion H|].
    destruct (gather env (t :: ts) s) as [[e0|values] s1] eqn:Hg;
      inversion H; subst.
    apply gather_spec in Hg
      as (evs & Heff & _ & _ & _ & done & x & rest & Hord & ->).
    exists (map Returned done ++ [Raised x e]), O, (t :: ts), done, x, rest.
    split; [apply Heff|]. split; [done|]. split; [done|]. done.
  - set (s1 := emit (Created (i + 1)) s) in *.
    change (this s1) with (this s) in H. simpl loop_batches.
    destruct (concurrent_requests (this s)
              <=? Z.of_nat (length (tasks ++ [i + 1])))%Z.
    + destruct (gather env (tasks ++ [i + 1]) s1) as [[e0|values] s2] eqn:Hg.
      * inversion H; subst.
        apply gather_spec in Hg
          as (evs & Heff & _ & _ & _ & done & x & rest' & Hord & ->).
        exists ([Created (i + 1)] ++ map Returned done ++ [Raised x e]),
          O, (tasks ++ [i + 1]), done, x, rest'.
        split; [rewrite (eff_trace _ _ _ _ Heff); simpl;
                by rewrite <- !app_assoc|].
        split; [done|]. split; [done|].
        simpl. rewrite map_app. simpl. by rewrite <- !app_assoc.
      * apply gather_spec in Hg as (evs & Heff & _ & -> & _).
        apply IH in H as (ext & k & b & done & x & rest' & Htr & Hb & Hord & Hext).
        rewrite (eff_this _ _ _ _ Heff) in Hb, Hext.
        change (this s1) with (this s) in Hb, Hext.
        exists ([Created (i + 1)]
                ++ map Returned (completion_order env (tasks ++ [i + 1])) ++ ext),
          (S k), b, done, x, rest'.
        split; [rewrite Htr, (eff_trace _ _ _ _ Heff); simpl;
                by rewrite <- !app_assoc|].
        split; [done|]. split; [done|].
        simpl in Hext. rewrite Hext. cbn [take flat_map].
        change (batch_events env (tasks ++ [i + 1]))
          with (map Created (tasks ++ [i + 1])
                ++ map Returned (completion_order env (tasks ++ [i + 1]))).
        rewrite map_app. simpl. by rewrite <- !app_assoc.
    + apply IH in H as (ext & k & b & done & x & rest' & Htr & Hb & Hord & Hext).
      change (this s1) with (this s) in Hb, Hext.
      exists ([Created (i + 1)] ++ ext), k, b, done, x, rest'.
      split; [rewrite Htr; simpl; by rewrite <- app_assoc|].
      split; [done|]. split; [done|].
      rewrite <- Hext, map_app. simpl. by rewrite <- app_assoc.
Qed.

Lemma run_trace_spec `{L : Library} self env d s' :
  run self env d = (inr tt, s') ->
  trace s' =
  flat_map (batch_events env)
    (batches (total_requests self) (concurrent_requests self)).
Proof.
  intros H. unfold run in H.
  apply dispatch_trace in H as (ext & Htr & Hext).
  simpl in *. rewrite Htr. exact Hext.
Qed.

Lemma run_trace_abort `{L : Library} self env d e s' :
  run self env d = (inl e, s') ->
  exists k b done x rest,
    batches (total_requests self) (concurrent_requests self) !! k = Some b
    /\ completion_order env b = done ++ x :: rest
    /\ trace s' =
       flat_map (batch_events env)
         (take k (batches (total_requests self) (concurrent_requests self)))
       ++ map Created b ++ map Returned done ++ [Raised x e].
Proof.
  intros H. unfold run in H.
  apply dispatch_trace_abort in H
    as (ext & k & b & done & x & rest & Htr & Hb & Hord & Hext).
  simpl in *. exists k, b, done, x, rest. rewrite Htr. by repeat split.
Qed.



Lemma returned_batch_events env b :
  returned (batch_events env b) = completion_order env b.
Proof.
  unfold batch_events. rewrite returned_app, returned_map_Returned.
  assert (returned (map Created b) = []) as ->; [|done].
  induction b; simpl; done.
Qed.

Lemma returned_batches env bs :
  returned (flat_map (batch_events env) bs) = flat_map (completion_order env) bs.
Proof.
  induction bs as [|b bs IH]; simpl; [done|].
  by rewrite returned_app, returned_batch_events, IH.
Qed.

Lemma run_aborted_returns `{L : Library} self env d e s' :
  run self env d = (inl e, s') ->
  sink_error e
  /\ length (returned (trace s')) = capacity d (log_file self).
Proof.
  intros H. apply run_spec in H as (Ht & _ & Hc & _ & Hend & _).
  destruct Hend as (He & Hz & _). rewrite Ht in Hz. split; [done|lia].
Qed.

(** * Claims about the run *)







(** C3.  With a concurrency [c] of at least one, the request ids
    [1..total_requests] are cut into consecutive batches of at most [c]
    requests, all of [c] requests but possibly the last, and the run
    dispatches them so.  A run returns exactly when the log takes a line for
    every request, and its trace is then the batches one after the other:
    the tasks of a batch are all created, all return, and only then is the
    next batch created.  A run that the sink stops has run the batches
    before the one it stopped in to their end, has created that one whole,
    and ends when one of its tasks raises, the log having taken the lines
    it could.  In the trace of every run, when a request is created it
    belongs to one of the batches and every request created before it is
    of that same batch or has already returned; and no prefix of the trace
    has more than [c] requests created and not ended. *)
Theorem batches_bound_requests_in_flight `{L : Library} self env d out s' :
  0 <= total_requests self ->
  1 <= concurrent_requests self ->
  run self env d = (out, s') ->
  let B := batches (total_requests self) (concurrent_requests self) in
  concat B = seqZ 1 (total_requests self)
  /\ Forall (fun b => 1 <= Z.of_nat (length b) <= concurrent_requests self) B
  /\ (forall k b, B !! k = Some b -> (S k < length B)%nat ->
                  Z.of_nat (length b) = concurrent_requests self)
  /\ (forall p j rest,
        trace s' = p ++ Created j :: rest ->
        exists b, b ∈ B /\ j ∈ b
                  /\ forall i, Created i ∈ p -> i ∈ b \/ Returned i ∈ p)
  /\ (forall p, p `prefix_of` trace s' ->
                Z.of_nat (length (in_flight p)) <= concurrent_requests self)
  /\ (out = inr tt -> created (trace s') = concat B)
  /\ (out = inr tt <->
      (Z.to_nat (total_requests self) <= capacity d (log_file self))%nat)
  /\ (out = inr tt -> trace s' = flat_map (batch_events env) B)
  /\ (forall e,
        out = inl e ->
        exists k b done x rest,
          B !! k = Some b
          /\ completion_order env b = done ++ x :: rest
          /\ trace s' =
             flat_map (batch_events env) (take k B)
             ++ map Created b ++ map Returned done ++ [Raised x e]
          /\ length (returned (trace s')) = capacity d (log_file self)).
Proof.
  intros Hn Hc Hrun B.
  destruct (run_calm self env d out s' Hc Hrun) as [Hb Hi].
  pose proof (run_returns_iff self env d out s' Hrun) as Hiff.
  split; [apply batches_concat|].
  split; [apply loop_batches_sizes; simpl; lia|].
  split; [intros k b; apply loop_batches_full; simpl; lia|].
  split; [exact Hi|]. split; [exact Hb|]. split; [|split; [exact Hiff|split]].
  - intros ->. apply run_spec in Hrun as (_ & _ & _ & _ & _ & _ & Hcr & _).
    unfold B. by rewrite batches_concat.
  - intros ->. by apply run_trace_spec in Hrun.
  - intros e ->. destruct (run_aborted_returns self env d e s' Hrun) as [_ Hlen].
    apply run_trace_abort in Hrun as (k & b & done & x & rest & Hk & Hord & Htr).
    by exists k, b, done, x, rest.
Qed.

Lemma batches_bound_requests_in_flight_witness :
  0 <= total_requests (sample_tester 5 2)
  /\ 1 <= concurrent_requests (sample_tester 5 2)
  /\ (forall p,
        p `prefix_of`
          trace (snd (run (sample_tester 5 2) sample_env (empty_disk 10))) ->
        Z.of_nat (length (in_flight p)) <= 2)
  /\ (fst (run (sample_tester 5 2) sample_env (empty_disk 10)) = inr tt ->
      trace (snd (run (sample_tester 5 2) sample_env (empty_disk 10)))
      = flat_map (batch_events sample_env) (batches 5 2)).
Proof.
  assert (H0 : 0 <= total_requests (sample_tester 5 2))
    by (vm_compute; discriminate).
  assert (H1 : 1 <= concurrent_requests (sample_tester 5 2))
    by (vm_compute; discriminate).
  split; [exact H0|]. split; [exact H1|].
  pose proof (batches_bound_requests_in_flight (sample_tester 5 2) sample_env
                (empty_disk 10) _ _ H0 H1 (surjective_pairing _))
    as (_ & _ & _ & _ & Hb & _ & _ & Htr & _).
  split; [exact Hb|exact Htr].
Defined.




(** C8.  An exception of [_log_result] leaves [make_request] as it is; in
    the trace of a run a raise is the last event, so nothing is dispatched
    or completed after it, and its exception is what [run] raises.  A run
    that returns has no raise in its trace.  When the log cannot take a line
    for every request, the run raises the sink's exception once the log has
    taken the lines it could. *)
Theorem sink_error_aborts_run `{L : Library} self env d out s' :
  run self env d = (out, s') ->
  (forall i d1 e d2,
     _log_result self (build_result self env i) d1 = (inl e, d2) ->
     make_request self env i d1 = (inl e, d2))
  /\ (forall p i e rest,
        trace s' = p ++ Raised i e :: rest ->
        out = inl e /\ rest = [] /\ sink_error e)
  /\ (out = inr tt -> Forall (fun ev => ¬ is_raise ev) (trace s'))
  /\ ((capacity d (log_file self) < Z.to_nat (total_requests self))%nat ->
      exists e i p,
        out = inl e /\ sink_error e
        /\ trace s' = p ++ [Raised i e]
        /\ length (returned (trace s')) = capacity d (log_file self)
        /\ file_lines (disk s') (log_file self) =
           file_lines d (log_file self)
             ++ map (log_line self env) (returned (trace s'))).
Proof.
  intros Hrun. pose proof (run_returns_iff self env d out s' Hrun) as Hiff.
  apply run_spec in Hrun as (Ht & Hl & Hc & _ & Hend & _).
  split; [intros i d1 e d2; apply make_request_inl|]. split; [|split].
  - intros p i e rest Htr. destruct out as [e0|u]; simpl in Hend.
    + destruct Hend as (He & _ & _ & evs0 & x & Hevs & Hnr).
      rewrite Htr in Hevs. destruct rest as [|y rest _] using rev_ind.
      * apply app_inj_tail in Hevs as [_ [= -> ->]]. done.
      * rewrite (app_comm_cons _ _ (Raised i e)), app_assoc in Hevs.
        apply app_inj_tail in Hevs as [<- _].
        apply Forall_app in Hnr as [_ Hnr]. apply Forall_inv in Hnr.
        by destruct Hnr.
    + destruct Hend as [Hnr _]. rewrite Htr in Hnr.
      apply Forall_app in Hnr as [_ Hnr]. apply Forall_inv in Hnr.
      by destruct Hnr.
  - intros ->. apply Hend.
  - intros Hlt. destruct out as [e|[]]; simpl in Hend.
    + destruct Hend as (He & Hz & _ & evs0 & x & Hevs & _).
      exists e, x, evs0. rewrite Ht in Hz. repeat split; auto. lia.
    + pose proof (proj1 Hiff eq_refl). lia.
Qed.

Lemma sink_error_aborts_run_witness :
  (capacity (empty_disk 3) (log_file (sample_tester 5 2))
   < Z.to_nat (total_requests (sample_tester 5 2)))%nat
  /\ exists e i p,
       fst (run (sample_tester 5 2) sample_env (empty_disk 3)) = inl e
       /\ sink_error e
       /\ trace (snd (run (sample_tester 5 2) sample_env (empty_disk 3)))
          = p ++ [Raised i e].
Proof.
  assert (H : (capacity (empty_disk 3) (log_file (sample_tester 5 2))
               < Z.to_nat (total_requests (sample_tester 5 2)))%nat)
    by (vm_compute; lia).
  split; [exact H|].
  destruct (proj2 (proj2 (proj2
              (sink_error_aborts_run (sample_tester 5 2) sample_env
                 (empty_disk 3) _ _ (surjective_pairing _)))) H)
    as (e & i & p & Hout & He & Htr & _).
  exists e, i, p. split; [exact Hout|]. split; [exact He|exact Htr].
Defined.

(** C10.  [_log_result] puts its line after what the log holds and [run]
    does nothing else to the files: after a run the log is what it was
    before followed by the lines of the requests that returned, and every
    other file is as before.  The log is emptied in [run_stress_test] only,
    before the tester is built: what the wrapper leaves in the log is the
    lines of its own run. *)
Theorem run_only_appends_to_log `{L : Library} self env d out s' :
  run self env d = (out, s') ->
  (forall result d0,
     file_lines (snd (_log_result self result d0)) (log_file self) =
     file_lines d0 (log_file self)
       ++ match fst (_log_result self result d0) with
          | inr _ => [dumps_result result]
          | inl _ => []
          end)
  /\ file_lines (disk s') (log_file self) =
     file_lines d (log_file self)
       ++ map (log_line self env) (returned (trace s'))
  /\ (forall path, path ≠ log_file self ->
                   file_lines (disk s') path = file_lines d path)
  /\ (out = inr tt ->
      map (log_line self env) (returned (trace s'))
      ≡ₚ map (log_line self env) (seqZ 1 (total_requests self)))
  /\ (forall url total c hs ps m path t d0,
        path ∉ read_only d0 ->
        let tester := __init__ url total c hs ps m path t in
        let d1 := snd (truncate path d0) in
        file_lines d1 path = []
        /\ run_stress_test env url total c hs ps m path t d0 =
           (fst (run tester env d1), disk (snd (run tester env d1)))
        /\ file_lines (snd (run_stress_test env url total c hs ps m path t d0))
             path =
           map (log_line tester env)
             (returned (trace (snd (run tester env d1))))).
Proof.
  intros Hrun. split; [|split; [|split; [|split]]].
  - intros result d0. unfold _log_result.
    pose proof (append_line_spec (log_file self) (dumps_result result) d0)
      as [H _].
    destruct (append_line _ _ d0) as [[e|u] d1]; simpl.
    + destruct H as (_ & _ & -> & _). by rewrite app_nil_r.
    + by destruct H as (_ & -> & _).
  - by apply run_spec in Hrun as (_ & Hl & _).
  - by apply run_spec in Hrun as (_ & _ & _ & Ho & _).
  - intros ->. apply run_spec in Hrun as (_ & _ & _ & _ & _ & _ & _ & Hret & _).
    apply Permutation_map.
    by rewrite Hret, flat_map_completion_order, batches_concat.
  - intros url total c hs ps m path t d0 Hro tester d1.
    assert (Htrunc : truncate path d0 = (inr tt, d1)).
    { unfold d1, truncate. by rewrite decide_False. }
    assert (Hempty : file_lines d1 path = []).
    { unfold d1, truncate. rewrite decide_False by done. simpl.
      rewrite file_lines_insert. by rewrite decide_True. }
    split; [done|].
    assert (Hwrap : run_stress_test env url total c hs ps m path t d0 =
                    (fst (run tester env d1), disk (snd (run tester env d1)))).
    { unfold run_stress_test, mkdir_parent. rewrite decide_False by done.
      rewrite Htrunc. fold tester.
      by destruct (run tester env d1). }
    split; [done|]. rewrite Hwrap. simpl.
    destruct (run tester env d1) as [out1 s1] eqn:Hrun1.
    apply run_spec in Hrun1 as (_ & Hl & _). simpl in *.
    change (log_file tester) with path in Hl. by rewrite Hl, Hempty.
Qed.

Lemma run_only_appends_to_log_witness :
  run (sample_tester 5 2) sample_env (prior_disk 10)
  = (fst (run (sample_tester 5 2) sample_env (prior_disk 10)),
     snd (run (sample_tester 5 2) sample_env (prior_disk 10)))
  /\ file_lines
       (disk (snd (run (sample_tester 5 2) sample_env (prior_disk 10))))
       (log_file (sample_tester 5 2)) =
     file_lines (prior_disk 10) (log_file (sample_tester 5 2))
       ++ map (log_line (sample_tester 5 2) sample_env)
            (returned
               (trace (snd (run (sample_tester 5 2) sample_env (prior_disk 10))))).
Proof.
  split; [apply surjective_pairing|].
  exact (proj1 (proj2
           (run_only_appends_to_log (sample_tester 5 2) sample_env
              (prior_disk 10) _ _ (surjective_pairing _)))).
Defined.

(** * Further properties of one result *)

(** Every result, whatever the outcome of its request, carries the id it was
    created with, the time the request began and the time it took, and the
    target as the tester holds it: the url, the method in upper case (for a
    method written in ASCII), the headers and the parameters, an absent
    mapping being an empty one. *)
Theorem result_echoes_target `{L : Library} env i url total c hs ps m path t :
  Forall (fun a => (nat_of_ascii a < 128)%nat) (list_ascii_of_string m) ->
  let self := __init__ url total c hs ps m path t in
  let r := build_result self env i in
  r !! "request_id" = Some (JInt i)
  /\ r !! "timestamp" = Some (JStr (now_iso env i))
  /\ r !! "url" = Some (JStr url)
  /\ r !! "method" = Some (JStr (upper m))
  /\ r !! "headers" = Some (string_map (default [] hs))
  /\ r !! "params" = Some (JObj (default [] ps))
  /\ r !! "response_time_ms" = Some (JFloat (response_time env i)).
Proof.
  intros _ self r. unfold r, build_result, try_block, try_block_on, except_block.
  destruct (request env i) as [e|response].
  - repeat split; unfold update, initial_result, update; simpl;
      by simplify_map_eq.
  - rewrite parse_body_value.
    repeat split; unfold update, initial_result, update; simpl;
      by simplify_map_eq.
Qed.

Lemma result_echoes_target_witness :
  Forall (fun a => (nat_of_ascii a < 128)%nat) (list_ascii_of_string "get")
  /\ build_result (sample_tester 3 2) sample_env 2 !! "method"
     = Some (JStr "GET").
Proof.
  assert (H : Forall (fun a => (nat_of_ascii a < 128)%nat)
                (list_ascii_of_string "get"))
    by (repeat constructor; vm_compute; lia).
  split; [exact H|].
  exact (proj1 (proj2 (proj2 (proj2
           (result_echoes_target sample_env 2 "http://localhost/todos" 3 2
              None None "get" "log.jsonl" (60 # 1)%Q H))))).
Defined.

(** The keys of a result tell the two outcomes apart.  After a response the
    result has the six keys of the request, the three of the outcome and the
    headers, length and body of the response, and no ["error"]; after an
    exception it has the six keys of the request, the three of the outcome
    and ["error"], and nothing of a response. *)
Theorem result_keys `{L : Library} self env i :
  (forall response,
     request env i = inr response ->
     dom (build_result self env i) = response_keys
     /\ ("error" ∉ dom (build_result self env i)))
  /\ (forall e,
        request env i = inl e ->
        dom (build_result self env i) = failure_keys
        /\ ("response_headers" ∉ dom (build_result self env i))
        /\ ("content_length" ∉ dom (build_result self env i))
        /\ ("response_body" ∉ dom (build_result self env i))).
Proof.
  split.
  - intros response H. unfold build_result, try_block, try_block_on. rewrite H.
    rewrite parse_body_value. unfold update, initial_result, update. simpl.
    rewrite !dom_insert_L, dom_empty_L. unfold response_keys.
    split; [apply (bool_decide_unpack _); vm_compute; exact I|].
    apply (bool_decide_unpack _); vm_compute; exact I.
  - intros e H. unfold build_result, try_block, try_block_on, except_block. rewrite H.
    unfold update, initial_result, update. simpl.
    rewrite !dom_insert_L, dom_empty_L. unfold failure_keys.
    split; [apply (bool_decide_unpack _); vm_compute; exact I|].
    repeat split; apply (bool_decide_unpack _); vm_compute; exact I.
Qed.

Lemma result_keys_witness :
  request sample_env 2 = inl (Exc "ReadTimeout" "timed out")
  /\ dom (build_result (sample_tester 3 2) sample_env 2) = failure_keys.
Proof.
  split; [reflexivity|].
  exact (proj1 (proj2 (result_keys (sample_tester 3 2) sample_env 2)
                  (Exc "ReadTimeout" "timed out") eq_refl)).
Defined.

(** After a response the result holds the headers of the response as a
    mapping, the number of bytes of its body, and its status code whatever
    that code is: a 4xx or 5xx answer is recorded like any other. *)
Theorem result_summarises_response `{L : Library} self env i response :
  request env i = inr response ->
  let r := build_result self env i in
  r !! "status_code" = Some (JInt (status_code response))
  /\ r !! "response_headers" = Some (string_map (response_headers response))
  /\ r !! "content_length" =
     Some (JInt (Z.of_nat (String.length (content response))))
  /\ r !! "response_body" =
     Some (match json_loads (content response) with
           | Some v => v
           | None => JStr (decode (content response))
           end).
Proof.
  intros H r. unfold r, build_result, try_block, try_block_on. rewrite H.
  rewrite parse_body_value.
  repeat split; unfold update, initial_result, update; simpl;
    by simplify_map_eq.
Qed.

Lemma result_summarises_response_witness :
  request sample_env 3 = inr (ok_response 500 "oops")
  /\ build_result (sample_tester 3 2) sample_env 3 !! "content_length"
     = Some (JInt 4).
Proof.
  split; [reflexivity|].
  exact (proj1 (proj2 (proj2
           (result_summarises_response (sample_tester 3 2) sample_env 3
              (ok_response 500 "oops") eq_refl)))).
Defined.

(** * Further properties of the run *)

Lemma in_flight_app t1 t2 :
  in_flight (t1 ++ t2) = fold_left step_in_flight t2 (in_flight t1).
Proof. unfold in_flight. apply fold_left_app. Qed.

Lemma in_flight_map_Created b : in_flight (map Created b) = b.
Proof.
  induction b as [|x b IH] using rev_ind; [done|].
  rewrite map_app. simpl. by rewrite in_flight_snoc, IH.
Qed.

Lemma in_flight_batch_events env b : in_flight (batch_events env b) = [].
Proof.
  unfold batch_events. apply in_flight_drained. intros i.
  by rewrite in_flight_map_Created, elem_of_completion_order.
Qed.

Lemma in_flight_batches env bs :
  in_flight (flat_map (batch_events env) bs) = [].
Proof.
  induction bs as [|b bs IH]; simpl; [done|].
  by rewrite in_flight_app, in_flight_batch_events.
Qed.

Lemma insert_by_ext key1 key2 x l :
  (forall i, key1 i = key2 i) -> insert_by key1 x l = insert_by key2 x l.
Proof.
  intros Hk. induction l as [|y l IH]; simpl; [done|].
  by rewrite !Hk, IH.
Qed.

Lemma completion_order_ext env1 env2 tasks :
  (forall i, completes_at env1 i = completes_at env2 i) ->
  completion_order env1 tasks = completion_order env2 tasks.
Proof.
  intros Hk. unfold completion_order.
  induction tasks as [|x l IH]; simpl; [done|].
  rewrite IH. by apply insert_by_ext.
Qed.

Lemma run_returns `{L : Library} self env d :
  (Z.to_nat (total_requests self) <= capacity d (log_file self))%nat ->
  run self env d = (inr tt, snd (run self env d)).
Proof.
  intros Hcap. destruct (run self env d) as [out s'] eqn:H.
  by rewrite (proj2 (run_returns_iff self env d out s' H) Hcap).
Qed.

(** The trace of a run that returns is the events of its batches one batch
    after the other: the requests of a batch are created in the order of
    their ids, then they return in the order of completion, and only then
    is the first request of the next batch created. *)
Theorem run_trace_by_batches `{L : Library} self env d s' :
  run self env d = (inr tt, s') ->
  trace s' =
  flat_map (batch_events env)
    (batches (total_requests self) (concurrent_requests self)).
Proof.
  intros H. unfold run in H.
  apply dispatch_trace in H as (ext & Htr & Hext).
  simpl in *. rewrite Htr. exact Hext.
Qed.

Lemma run_trace_by_batches_witness :
  run (sample_tester 5 2) sample_env (empty_disk 10)
  = (inr tt, snd (run (sample_tester 5 2) sample_env (empty_disk 10)))
  /\ trace (snd (run (sample_tester 5 2) sample_env (empty_disk 10)))
     = flat_map (batch_events sample_env) (batches 5 2).
Proof.
  assert (H : run (sample_tester 5 2) sample_env (empty_disk 10)
              = (inr tt, snd (run (sample_tester 5 2) sample_env (empty_disk 10))))
    by (apply run_returns; vm_compute; lia).
  split; [exact H|].
  exact (run_trace_by_batches (sample_tester 5 2) sample_env (empty_disk 10) _ H).
Defined.

(** When [run] returns no request is left in flight: every task it created
    has returned. *)
Theorem run_leaves_nothing_in_flight `{L : Library} self env d s' :
  run self env d = (inr tt, s') ->
  in_flight (trace s') = []
  /\ created (trace s') ≡ₚ returned (trace s').
Proof.
  intros H. split.
  - rewrite (run_trace_spec self env d s' H). apply in_flight_batches.
  - apply run_spec in H as (_ & _ & _ & _ & _ & _ & -> & -> & _).
    by rewrite flat_map_completion_order, batches_concat.
Qed.

Lemma run_leaves_nothing_in_flight_witness :
  run (sample_tester 5 2) sample_env (empty_disk 10)
  = (inr tt, snd (run (sample_tester 5 2) sample_env (empty_disk 10)))
  /\ in_flight (trace (snd (run (sample_tester 5 2) sample_env (empty_disk 10))))
     = [].
Proof.
  assert (H : run (sample_tester 5 2) sample_env (empty_disk 10)
              = (inr tt, snd (run (sample_tester 5 2) sample_env (empty_disk 10))))
    by (apply run_returns; vm_compute; lia).
  split; [exact H|].
  exact (proj1 (run_leaves_nothing_in_flight (sample_tester 5 2) sample_env
                  (empty_disk 10) _ H)).
Defined.

(** The loop never looks at what a request gave: two runs of the same tester
    that return have the same trace as soon as the requests complete at the
    same times, whatever the responses, the exceptions, the clock and the
    files are. *)
Theorem dispatch_ignores_outcomes `{L : Library} self env1 env2 d1 d2 s1 s2 :
  (forall i, completes_at env1 i = completes_at env2 i) ->
  run self env1 d1 = (inr tt, s1) ->
  run self env2 d2 = (inr tt, s2) ->
  trace s1 = trace s2.
Proof.
  intros Hk H1 H2.
  rewrite (run_trace_spec _ _ _ _ H1), (run_trace_spec _ _ _ _ H2).
  apply flat_map_ext. intros b. unfold batch_events.
  by rewrite (completion_order_ext env1 env2 b Hk).
Qed.

Lemma dispatch_ignores_outcomes_witness :
  (forall i, completes_at sample_env i = completes_at refusing_env i)
  /\ trace (snd (run (sample_tester 5 2) sample_env (empty_disk 10)))
     = trace (snd (run (sample_tester 5 2) refusing_env (prior_disk 7))).
Proof.
  assert (Hk : forall i, completes_at sample_env i = completes_at refusing_env i)
    by reflexivity.
  split; [exact Hk|].
  apply (dispatch_ignores_outcomes (sample_tester 5 2) sample_env refusing_env
           (empty_disk 10) (prior_disk 7) _ _ Hk);
    apply run_returns; vm_compute; lia.
Defined.

(** * Further properties of the batches *)

Lemma seqZ_snoc m n : 0 <= n -> seqZ m n ++ [m + n] = seqZ m (n + 1).
Proof.
  intros Hn. rewrite (seqZ_app m n 1) by lia. reflexivity.
Qed.

Lemma loop_batches_lookup c :
  1 <= c ->
  forall m a tasks k b,
    Z.of_nat (length tasks) < c ->
    tasks = seqZ (a + 1 - Z.of_nat (length tasks)) (Z.of_nat (length tasks)) ->
    loop_batches c (seqZ a (Z.of_nat m)) tasks !! k = Some b ->
    b = seqZ (a + 1 - Z.of_nat (length tasks) + Z.of_nat k * c)
             (Z.min c (Z.of_nat (length tasks) + Z.of_nat m - Z.of_nat k * c))
    /\ Z.of_nat k * c < Z.of_nat (length tasks) + Z.of_nat m.
Proof.
  intros Hc. induction m as [|m IH]; intros a tasks k b Hlt Htasks.
  - rewrite seqZ_nil by lia. simpl. destruct tasks as [|t ts]; [done|].
    destruct k as [|k]; [|done]. intros [= <-].
    split; [|simpl; lia].
    rewrite Htasks at 1. f_equal; simpl in *; lia.
  - rewrite seqZ_cons by lia.
    replace (Z.pred (Z.of_nat (S m))) with (Z.of_nat m) by lia.
    replace (Z.succ a) with (a + 1) by lia. simpl loop_batches.
    assert (Htasks' : tasks ++ [a + 1] =
                      seqZ (a + 1 - Z.of_nat (length tasks))
                           (Z.of_nat (length tasks) + 1)).
    { rewrite <- seqZ_snoc by lia. rewrite <- Htasks. f_equal. f_equal. lia. }
    assert (Hlen' : Z.of_nat (length (tasks ++ [a + 1]))
                    = Z.of_nat (length tasks) + 1).
    { rewrite length_app. simpl. lia. }
    destruct (Z.leb_spec c (Z.of_nat (length (tasks ++ [a + 1]))))
      as [Hfull|Hfull].
    + destruct k as [|k]; intros Hb; simpl in Hb.
      * injection Hb as <-. split; [|lia]. rewrite Htasks'. f_equal; lia.
      * apply (IH (a + 1) [] k b) in Hb as [-> Hk];
          [|simpl; lia|simpl; by rewrite seqZ_nil].
        cbn [length] in *. rewrite Nat2Z.inj_succ.
        split; [f_equal; nia|nia].
    + intros Hb. apply (IH (a + 1) (tasks ++ [a + 1]) k b) in Hb as [-> Hk];
        [|lia|rewrite Hlen'; rewrite Htasks' at 1; f_equal; lia].
      rewrite Hlen' in *. rewrite Nat2Z.inj_succ. split; [f_equal; lia|lia].
Qed.

Lemma loop_batches_count c indices : forall tasks,
  1 <= c ->
  Z.of_nat (length tasks) < c ->
  let n := Z.of_nat (length (loop_batches c indices tasks)) in
  let total := Z.of_nat (length tasks) + Z.of_nat (length indices) in
  (total = 0 -> n = 0) /\ (0 < total -> (n - 1) * c < total <= n * c).
Proof.
  induction indices as [|i rest IH]; intros tasks Hc Hlt; simpl.
  - destruct tasks as [|t ts]; simpl in *; split; lia.
  - assert (Hlen' : Z.of_nat (length (tasks ++ [i + 1]))
                    = Z.of_nat (length tasks) + 1).
    { rewrite length_app. simpl. lia. }
    destruct (Z.leb_spec c (Z.of_nat (length (tasks ++ [i + 1]))))
      as [Hfull|Hfull].
    + destruct (IH [] Hc) as [H0 H1]; [simpl; lia|]. simpl in *.
      split; [lia|]. intros _.
      destruct (decide (Z.of_nat (length rest) = 0)) as [Hz|Hnz].
      * rewrite (H0 Hz) in *. lia.
      * specialize (H1 ltac:(lia)). nia.
    + destruct (IH (tasks ++ [i + 1]) Hc) as [H0 H1]; [lia|].
      rewrite Hlen' in *. split; [lia|]. intros _.
      specialize (H1 ltac:(lia)). lia.
Qed.

(** With a concurrency [c] of at least one, [total] requests make
    [ceil (total / c)] batches, and batch number [k], from zero, holds the
    requests [k * c + 1] to [min ((k + 1) * c, total)]. *)
Theorem batches_closed_form total c :
  0 <= total -> 1 <= c ->
  Z.of_nat (length (batches total c)) = (total + c - 1) / c
  /\ (forall k b,
        batches total c !! k = Some b ->
        b = seqZ (Z.of_nat k * c + 1) (Z.min c (total - Z.of_nat k * c)))
  /\ (forall k, is_Some (batches total c !! k) <-> Z.of_nat k * c < total).
Proof.
  intros Hn Hc. unfold batches, range.
  pose proof (loop_batches_count c (seqZ 0 total) [] Hc) as Hcount.
  simpl in Hcount. rewrite length_seqZ in Hcount.
  destruct Hcount as [H0 H1]; [lia|].
  set (n := Z.of_nat (length (loop_batches c (seqZ 0 total) []))) in *.
  assert (Hlookup : forall k b,
            loop_batches c (seqZ 0 total) [] !! k = Some b ->
            b = seqZ (Z.of_nat k * c + 1) (Z.min c (total - Z.of_nat k * c))
            /\ Z.of_nat k * c < total).
  { intros k b Hb. rewrite <- (Z2Nat.id total) in Hb at 1 by lia.
    apply (loop_batches_lookup c Hc) in Hb as [-> Hk];
      [|simpl; lia|simpl; by rewrite seqZ_nil].
    simpl in *. rewrite Z2Nat.id in * by lia. split; [f_equal; lia|lia]. }
  split; [|split].
  - destruct (decide (total = 0)) as [->|Hpos].
    + rewrite H0 by lia. symmetry. apply Z.div_small. lia.
    + specialize (H1 ltac:(lia)).
      apply (Z.div_unique _ _ _ (total + c - 1 - c * n)); lia.
  - intros k b Hb. by apply Hlookup in Hb as [-> _].
  - intros k. split.
    + intros [b Hb]. by apply Hlookup in Hb as [_ Hk].
    + intros Hk. apply lookup_lt_is_Some.
      specialize (H1 ltac:(lia)). fold n in H1.
      assert (Z.of_nat k < n) by nia. unfold n in *. lia.
Qed.

Lemma batches_closed_form_witness :
  0 <= 5 /\ 1 <= 2
  /\ Z.of_nat (length (batches 5 2)) = 3
  /\ batches 5 2 !! 2%nat = Some [5].
Proof.
  assert (H0 : 0 <= 5) by lia. assert (H1 : 1 <= 2) by lia.
  split; [exact H0|]. split; [exact H1|].
  split; [exact (proj1 (batches_closed_form 5 2 H0 H1))|].
  destruct (proj2 (proj2 (proj2 (batches_closed_form 5 2 H0 H1)) 2%nat))
    as [b Hb]; [lia|].
  rewrite Hb. f_equal.
  exact (proj1 (proj2 (batches_closed_form 5 2 H0 H1)) 2%nat b Hb).
Defined.

(** * Further properties of the log *)

Lemma loop_batches_sequential c indices :
  c <= 1 -> loop_batches c indices [] = map (fun i => [i + 1]) indices.
Proof.
  intros Hc. induction indices as [|i rest IH]; simpl; [done|].
  rewrite (proj2 (Z.leb_le _ _)) by lia. by rewrite IH.
Qed.

Lemma flat_map_completion_order_singletons env ids :
  flat_map (completion_order env) (map (fun i => [i]) ids) = ids.
Proof. induction ids as [|i ids IH]; simpl; [done|]. by rewrite IH. Qed.

(** A run with no request to make, its total being zero or less, does
    nothing at all: it creates no task, opens no file, even one it could
    not open, and returns. *)
Theorem run_of_no_request `{L : Library} self env d :
  total_requests self <= 0 ->
  run self env d =
  (inr tt,
   {| this := self; disk := d; trace := []; finished := ∅; gathered := [] |}).
Proof.
  intros Hn. unfold run, range. by rewrite seqZ_nil by done.
Qed.

Lemma run_of_no_request_witness :
  total_requests (sample_tester (-2) 3) <= 0
  /\ fst (run (sample_tester (-2) 3) sample_env locked_disk) = inr tt
  /\ disk (snd (run (sample_tester (-2) 3) sample_env locked_disk))
     = locked_disk.
Proof.
  assert (H : total_requests (sample_tester (-2) 3) <= 0)
    by (vm_compute; discriminate).
  split; [exact H|].
  rewrite (run_of_no_request (sample_tester (-2) 3) sample_env locked_disk H).
  split; reflexivity.
Defined.

(** [make_request] writes at most one line, at the end of the log, and
    touches nothing else: when it returns a result the log has gained the
    line of that result, when it raises no file has changed its lines; in
    both cases the other files and the permissions are as before. *)
Theorem make_request_appends_its_line `{L : Library} self env i d out d' :
  make_request self env i d = (out, d') ->
  read_only d' = read_only d
  /\ (forall path, path ≠ log_file self ->
                   file_lines d' path = file_lines d path)
  /\ match out with
     | inr r =>
         r = build_result self env i
         /\ file_lines d' (log_file self) =
            file_lines d (log_file self) ++ [dumps_result r]
     | inl e => file_lines d' (log_file self) = file_lines d (log_file self)
     end.
Proof.
  rewrite make_request_unfold. unfold _log_result. intros H.
  pose proof (append_line_spec (log_file self)
                (dumps_result (build_result self env i)) d) as [Hs Ho].
  assert (Hro : read_only (snd (append_line (log_file self)
                  (dumps_result (build_result self env i)) d)) = read_only d).
  { unfold append_line. destruct (decide (log_file self ∈ read_only d));
      [done|]. by destruct (free d). }
  destruct (append_line _ _ d) as [[e|u] d1]; inversion H; subst; simpl in *.
  - split; [done|]. split; [done|]. apply Hs.
  - split; [done|]. split; [done|]. split; [done|]. apply Hs.
Qed.

Lemma make_request_appends_its_line_witness :
  make_request (sample_tester 3 2) sample_env 1 (prior_disk 4)
  = (fst (make_request (sample_tester 3 2) sample_env 1 (prior_disk 4)),
     snd (make_request (sample_tester 3 2) sample_env 1 (prior_disk 4)))
  /\ read_only (snd (make_request (sample_tester 3 2) sample_env 1 (prior_disk 4)))
     = read_only (prior_disk 4).
Proof.
  split; [apply surjective_pairing|].
  exact (proj1 (make_request_appends_its_line (sample_tester 3 2) sample_env 1
                  (prior_disk 4) _ _ (surjective_pairing _))).
Defined.

(** After a run that returns, the log holds what it held before, then the
    lines of the first batch in the order in which its requests completed,
    then those of the second batch, and so on.  With a concurrency of one
    or less the requests run one at a time and the lines are in the order of
    the request ids. *)
Theorem log_is_in_completion_order `{L : Library} self env d s' :
  run self env d = (inr tt, s') ->
  file_lines (disk s') (log_file self) =
  file_lines d (log_file self)
    ++ map (log_line self env)
         (flat_map (completion_order env)
            (batches (total_requests self) (concurrent_requests self)))
  /\ (concurrent_requests self <= 1 ->
      file_lines (disk s') (log_file self) =
      file_lines d (log_file self)
        ++ map (log_line self env) (seqZ 1 (total_requests self))).
Proof.
  intros H. apply run_spec in H as (_ & Hl & _ & _ & _ & _ & _ & Hret & _).
  rewrite Hl, Hret. split; [done|]. intros Hc. do 2 f_equal.
  unfold batches. rewrite loop_batches_sequential by done.
  rewrite <- range_succ.
  rewrite <- (map_map (fun i => i + 1) (fun i => [i])).
  apply flat_map_completion_order_singletons.
Qed.

Lemma log_is_in_completion_order_witness :
  run (sample_tester 3 1) sample_env (prior_disk 10)
  = (inr tt, snd (run (sample_tester 3 1) sample_env (prior_disk 10)))
  /\ concurrent_requests (sample_tester 3 1) <= 1
  /\ file_lines (disk (snd (run (sample_tester 3 1) sample_env (prior_disk 10))))
       (log_file (sample_tester 3 1)) =
     file_lines (prior_disk 10) (log_file (sample_tester 3 1))
       ++ map (log_line (sample_tester 3 1) sample_env) (seqZ 1 3).
Proof.
  assert (H : run (sample_tester 3 1) sample_env (prior_disk 10)
              = (inr tt, snd (run (sample_tester 3 1) sample_env (prior_disk 10))))
    by (apply run_returns; vm_compute; lia).
  assert (Hc : concurrent_requests (sample_tester 3 1) <= 1)
    by (vm_compute; discriminate).
  split; [exact H|]. split; [exact Hc|].
  exact (proj2 (log_is_in_completion_order (sample_tester 3 1) sample_env
                  (prior_disk 10) _ H) Hc).
Defined.



(** The results of a run that returns are those of the requests
    [1..total_requests], so they follow what the server does.  If every
    request gets a response with one same status outside [200, 300), every
    result has that status, ["success"] false and no ["error"]; if every
    request raises, every result has an ["error"], no status and
    ["success"] false.  In both cases the run returns: a failed request
    stops nothing. *)
Theorem results_follow_the_server `{L : Library} self env d s' :
  run self env d = (inr tt, s') ->
  (forall r, r ∈ concat (gathered s') <->
             exists i, 1 <= i <= total_requests self
                       /\ r = build_result self env i)
  /\ (forall code,
        (forall i, exists response,
             request env i = inr response /\ status_code response = code) ->
        ¬ (200 <= code < 300) ->
        Forall (fun r => r !! "status_code" = Some (JInt code)
                         /\ r !! "success" = Some (JBool false)
                         /\ r !! "error" = None)
               (concat (gathered s')))
  /\ ((forall i, exists e, request env i = inl e) ->
      Forall (fun r => r !! "status_code" = Some JNull
                       /\ r !! "success" = Some (JBool false)
                       /\ is_Some (r !! "error"))
             (concat (gathered s'))).
Proof.
  intros H. apply run_spec in H as (_ & _ & _ & _ & _ & _ & _ & _ & Hg).
  assert (Hcat : concat (gathered s') =
                 map (build_result self env) (seqZ 1 (total_requests self))).
  { by rewrite Hg, concat_gathered, batches_concat. }
  rewrite Hcat. split; [|split].
  - intros r. rewrite list_elem_of_fmap. setoid_rewrite elem_of_seqZ.
    split.
    + intros (i & -> & Hi). exists i. split; [lia|done].
    + intros (i & Hi & ->). exists i. split; [done|lia].
  - intros code Hall Hcode. apply Forall_fmap, Forall_forall. intros i _.
    destruct (Hall i) as (response & Hreq & <-).
    destruct (build_result_responded self env i response Hreq)
      as (Hs & He & Hb & _).
    simpl. split; [done|]. split; [|done]. rewrite Hb. do 2 f_equal.
    apply not_true_is_false. rewrite andb_true_iff, Z.leb_le, Z.ltb_lt. tauto.
  - intros Hall. apply Forall_fmap, Forall_forall. intros i _.
    destruct (Hall i) as (e & Hreq).
    destruct (build_result_failed self env i e Hreq) as (Hs & He & Hb & _).
    simpl. split; [done|]. split; [done|]. by eexists.
Qed.

Lemma results_follow_the_server_witness :
  run (sample_tester 4 3) (constant_env 500) (empty_disk 10)
  = (inr tt, snd (run (sample_tester 4 3) (constant_env 500) (empty_disk 10)))
  /\ Forall (fun r => r !! "status_code" = Some (JInt 500)
                      /\ r !! "success" = Some (JBool false)
                      /\ r !! "error" = None)
       (concat (gathered
                  (snd (run (sample_tester 4 3) (constant_env 500)
                          (empty_disk 10))))).
Proof.
  assert (H : run (sample_tester 4 3) (constant_env 500) (empty_disk 10)
              = (inr tt,
                 snd (run (sample_tester 4 3) (constant_env 500) (empty_disk 10))))
    by (apply run_returns; vm_compute; lia).
  split; [exact H|].
  apply (proj1 (proj2 (results_follow_the_server (sample_tester 4 3)
                         (constant_env 500) (empty_disk 10) _ H)) 500).
  - intros i. exists (ok_response 500 "busy"). split; reflexivity.
  - lia.
Defined.

(** * Further properties: a log that takes nothing, and the method *)

(** When the log takes no line at all (it cannot be opened for writing, or
    the device is full) and there is a request to make, the run creates the
    tasks of its first batch, requests [1] to [min (c, total)], and ends
    there: the first of them to complete raises the sink's exception, which
    [run] raises; no request has returned and no file has a line more. *)
Theorem unwritable_log_stops_first_batch `{L : Library} self env d out s' :
  1 <= concurrent_requests self ->
  1 <= total_requests self ->
  capacity d (log_file self) = O ->
  run self env d = (out, s') ->
  let b := seqZ 1 (Z.min (concurrent_requests self) (total_requests self)) in
  exists e x rest,
    out = inl e /\ sink_error e
    /\ completion_order env b = x :: rest
    /\ trace s' = map Created b ++ [Raised x e]
    /\ forall path, file_lines (disk s') path = file_lines d path.
Proof.
  intros Hc Hn Hcap Hrun b.
  pose proof (run_returns_iff self env d out s' Hrun) as Hiff.
  destruct out as [e|[]]; [|pose proof (proj1 Hiff eq_refl); lia].
  destruct (run_aborted_returns self env d e s' Hrun) as [He Hlen].
  pose proof (run_spec self env d _ s' Hrun) as (_ & Hl & _ & Ho & _).
  apply run_trace_abort in Hrun as (k & b0 & done & x & rest & Hk & Hord & Htr).
  assert (Hret : returned (trace s') = []).
  { apply length_zero_iff_nil. lia. }
  rewrite Htr, !returned_app, returned_batches, returned_map_Returned in Hret.
  apply app_eq_nil in Hret as [Hpre Hret].
  apply app_eq_nil in Hret as [_ Hret].
  apply app_eq_nil in Hret as [-> _].
  assert (k = O) as ->.
  { destruct k as [|k]; [done|]. exfalso.
    destruct (batches (total_requests self) (concurrent_requests self))
      as [|b1 bs] eqn:HB; [done|].
    pose proof (loop_batches_sizes (concurrent_requests self)
                  (range (total_requests self)) []) as Hsz.
    fold (batches (total_requests self) (concurrent_requests self)) in Hsz.
    rewrite HB in Hsz. simpl in Hsz, Hpre.
    apply Forall_cons in Hsz as [Hb1 _]; [|lia].
    apply app_eq_nil in Hpre as [Hb1nil _].
    apply (f_equal length) in Hb1nil.
    rewrite completion_order_length in Hb1nil. simpl in Hb1nil. lia. }
  assert (b0 = b) as ->.
  { unfold batches, range in Hk.
    rewrite <- (Z2Nat.id (total_requests self)) in Hk at 1 by lia.
    apply (loop_batches_lookup (concurrent_requests self) Hc) in Hk as [-> _];
      [|simpl; lia|simpl; by rewrite seqZ_nil].
    simpl. rewrite Z2Nat.id by lia. unfold b. f_equal; lia. }
  exists e, x, rest. split; [done|]. split; [done|]. split; [done|].
  simpl in Htr. split; [done|]. intros path.
  destruct (decide (path = log_file self)) as [->|Hne]; [|by apply Ho].
  rewrite Hl, Htr. simpl.
  rewrite returned_app. simpl.
  assert (returned (map Created b) = []) as ->
    by (clear; induction b; simpl; done).
  simpl. by rewrite app_nil_r.
Qed.

Lemma unwritable_log_stops_first_batch_witness :
  1 <= concurrent_requests (sample_tester 5 2)
  /\ 1 <= total_requests (sample_tester 5 2)
  /\ capacity locked_disk (log_file (sample_tester 5 2)) = O
  /\ exists e x,
       fst (run (sample_tester 5 2) sample_env locked_disk) = inl e
       /\ trace (snd (run (sample_tester 5 2) sample_env locked_disk))
          = map Created (seqZ 1 2) ++ [Raised x e].
Proof.
  assert (H1 : 1 <= concurrent_requests (sample_tester 5 2))
    by (vm_compute; discriminate).
  assert (H2 : 1 <= total_requests (sample_tester 5 2))
    by (vm_compute; discriminate).
  assert (H3 : capacity locked_disk (log_file (sample_tester 5 2)) = O)
    by (vm_compute; reflexivity).
  split; [exact H1|]. split; [exact H2|]. split; [exact H3|].
  destruct (unwritable_log_stops_first_batch (sample_tester 5 2) sample_env
              locked_disk _ _ H1 H2 H3 (surjective_pairing _))
    as (e & x & rest & Hout & _ & _ & Htr & _).
  exists e, x. split; [exact Hout|exact Htr].
Defined.





Lemma filter_out_only (j : Z) : filter (fun k => k ≠ j) [j] = [].
Proof.
  rewrite filter_cons_False; [done|]. intros Hne. by apply Hne.
Qed.

(** With a concurrency of one, and just as well of zero or less, a run that
    returns has made its requests strictly one after the other: each
    request is created and returns before the next one is created. *)
Theorem sequential_when_concurrency_at_most_one `{L : Library} self env d s' :
  concurrent_requests self <= 1 ->
  run self env d = (inr tt, s') ->
  trace s' =
  flat_map (fun i => [Created i; Returned i]) (seqZ 1 (total_requests self))
  /\ forall p, p `prefix_of` trace s' -> (length (in_flight p) <= 1)%nat.
Proof.
  intros Hc H.
  assert (Htr : trace s' =
                flat_map (fun i => [Created i; Returned i])
                  (seqZ 1 (total_requests self))).
  { rewrite (run_trace_spec self env d s' H). unfold batches.
    rewrite loop_batches_sequential by done. rewrite <- range_succ.
    induction (range (total_requests self)) as [|i l IH]; simpl; [done|].
    by rewrite IH. }
  split; [done|]. rewrite Htr. clear.
  induction (seqZ 1 (total_requests self)) as [|i l IH] using rev_ind;
    intros p Hp; simpl in Hp.
  - apply prefix_nil_inv in Hp as ->. simpl. lia.
  - rewrite flat_map_app in Hp. simpl in Hp.
    assert (Hdrained : in_flight (flat_map (fun i => [Created i; Returned i]) l)
                       = []).
    { clear. induction l as [|j l IH] using rev_ind; [done|].
      rewrite flat_map_app. simpl.
      rewrite cons_middle, app_assoc, !in_flight_snoc, IH.
      simpl. apply filter_out_only. }
    rewrite cons_middle, app_assoc in Hp.
    apply prefix_snoc_cases in Hp as [Hp| ->].
    + apply prefix_snoc_cases in Hp as [Hp| ->]; [by apply IH|].
      rewrite in_flight_snoc, Hdrained. simpl. lia.
    + rewrite !in_flight_snoc, Hdrained. simpl.
      rewrite filter_out_only. simpl. lia.
Qed.

Lemma sequential_when_concurrency_at_most_one_witness :
  concurrent_requests (sample_tester 3 0) <= 1
  /\ trace (snd (run (sample_tester 3 0) sample_env (empty_disk 10)))
     = flat_map (fun i => [Created i; Returned i]) (seqZ 1 3).
Proof.
  assert (Hc : concurrent_requests (sample_tester 3 0) <= 1)
    by (vm_compute; discriminate).
  split; [exact Hc|].
  apply (sequential_when_concurrency_at_most_one (sample_tester 3 0) sample_env
           (empty_disk 10) _ Hc).
  apply run_returns. vm_compute. lia.
Defined.
